(** * Virtual Planner: access gate, keyword retrieval and citation rewriting

    A shallow embedding of the request-time core of the Virtual Planner
    server.  Two revisions of [server.js] carry that core:

    - the "Admin Override" revision ([src/unnamed/part_001], second file),
      embedded in [Module AdminOverride];
    - the "robust errors" revision ([src/unnamed/part_002], first file),
      embedded in [Module RobustErrors].

    [Module PerCityPages] holds the tenant lookup of the revision with
    per-city pages ([src/server.js]), which has no gate.

    Functions whose text is the same in both revisions ([isWithinWindow],
    [getCityConfig], [adminAuth], the toggle route, [escapeReg], the scoring
    loop of [sliceByKeywords]) are embedded once, before the two modules.

    Conventions of the embedding:
    - a JavaScript string is the list of its UTF-16 code units
      ([jsstring]), the unit of [length], [slice] and the regular
      expressions; [trim] removes the white space and line terminators of
      ECMAScript; [toLowerCase] maps the capital letters of ASCII and
      Latin-1 and leaves every other code unit as it is;
    - [undefined] (a missing query parameter, a missing JSON field) is [None];
    - the JSON object [cities] is an association list in enumeration order,
      the names it inherits from [Object.prototype] being looked up after
      its own;
    - the [Map] built by [loadIndex] is a [gmap];
    - a score is kept in quarter units (every score of the source is a
      multiple of 0.25, which binary64 represents exactly);
    - a [Date] is its time value in milliseconds, [None] standing for the
      invalid date. *)

From Stdlib Require Import Ascii String List NArith ZArith Lia Bool Permutation Sorted.
From stdpp Require Import gmap strings.
Import ListNotations.

(** ** JavaScript strings *)

Definition jsstring := list N.

(** The code units of a text given by its UTF-8 bytes; a character beyond
    the basic plane is a pair of surrogates. *)
Fixpoint utf16_of_utf8 (bytes : list N) : jsstring :=
  match bytes with
  | [] => []
  | b0 :: r0 =>
      if (b0 <? 128)%N then b0 :: utf16_of_utf8 r0
      else
        match r0 with
        | [] => [65533%N]
        | b1 :: r1 =>
            if (b0 <? 224)%N
            then ((b0 - 192) * 64 + (b1 - 128))%N :: utf16_of_utf8 r1
            else
              match r1 with
              | [] => [65533%N]
              | b2 :: r2 =>
                  if (b0 <? 240)%N
                  then ((b0 - 224) * 4096 + (b1 - 128) * 64 + (b2 - 128))%N
                       :: utf16_of_utf8 r2
                  else
                    match r2 with
                    | [] => [65533%N]
                    | b3 :: r3 =>
                        let v := ((b0 - 240) * 262144 + (b1 - 128) * 4096
                                  + (b2 - 128) * 64 + (b3 - 128) - 65536)%N in
                        (55296 + v / 1024)%N :: (56320 + v mod 1024)%N
                        :: utf16_of_utf8 r3
                    end
              end
        end
  end.

(** A string literal of the source. *)
Definition str (s : string) : jsstring :=
  utf16_of_utf8 (map N_of_ascii (list_ascii_of_string s)).
Arguments str s%_string.

(** Truthiness of a string: only the empty string is falsy. *)
Definition truthy (s : jsstring) : bool :=
  match s with [] => false | _ :: _ => true end.

(** Truthiness of a value that is a string or [undefined]. *)
Definition truthy_opt (o : option jsstring) : bool :=
  match o with Some s => truthy s | None => false end.

(** [a || ""] for [a] a string or [undefined]. *)
Definition or_empty (o : option jsstring) : jsstring :=
  match o with Some s => s | None => [] end.

Definition is_upper (c : N) : bool := ((65 <=? c) && (c <=? 90))%N.

Definition is_lower (c : N) : bool := ((97 <=? c) && (c <=? 122))%N.

Definition is_digit (c : N) : bool := ((48 <=? c) && (c <=? 57))%N.

(** The class [[a-z0-9]] under the [i] flag. *)
Definition is_alnum (c : N) : bool :=
  is_upper c || is_lower c || is_digit c.

(** The class [\w] of a regular expression: letters, digits and underscore. *)
Definition is_word (c : N) : bool :=
  is_alnum c || (c =? 95)%N.

(** What [String.prototype.trim] removes, the white space and the line
    terminators of ECMAScript: TAB, LF, VT, FF, CR, SP, U+00A0, U+1680,
    U+2000 to U+200A, U+2028, U+2029, U+202F, U+205F, U+3000 and U+FEFF. *)
Definition is_space (c : N) : bool :=
  (((9 <=? c) && (c <=? 13)) || (c =? 32) || (c =? 160) || (c =? 5760)
   || ((8192 <=? c) && (c <=? 8202)) || (c =? 8232) || (c =? 8233)
   || (c =? 8239) || (c =? 8287) || (c =? 12288) || (c =? 65279))%N.

(** The capital letters of Latin-1 beyond ASCII: U+00C0 to U+00DE without
    the multiplication sign U+00D7. *)
Definition is_upper_latin1 (c : N) : bool :=
  ((192 <=? c) && (c <=? 222) && negb (c =? 215))%N.

(** [toLowerCase] on one code unit: a capital letter of ASCII or of Latin-1
    is 32 below its small letter; other code units are left as they are. *)
Definition lower_char (c : N) : N :=
  if is_upper c || is_upper_latin1 c then (c + 32)%N else c.

Definition toLowerCase (s : jsstring) : jsstring := map lower_char s.

Fixpoint trimStart (s : jsstring) : jsstring :=
  match s with
  | c :: r => if is_space c then trimStart r else s
  | [] => []
  end.

Definition trimEnd (s : jsstring) : jsstring := rev (trimStart (rev s)).

Definition trim (s : jsstring) : jsstring := trimEnd (trimStart s).

Fixpoint startsWith (p s : jsstring) : bool :=
  match p, s with
  | [], _ => true
  | a :: p', b :: s' => N.eqb a b && startsWith p' s'
  | _ :: _, [] => false
  end.

Definition endsWith (suf s : jsstring) : bool := startsWith (rev suf) (rev s).

(** [s.includes(sub)]: [sub] starts at some position of [s]. *)
Fixpoint includes (sub s : jsstring) : bool :=
  startsWith sub s ||
  match s with
  | [] => false
  | _ :: r => includes sub r
  end.

(** ** Tenants and the access gate *)

(** One entry of [cities.json], as far as the gate reads it. *)
Record CityConfig := {
  cfg_token : option jsstring;
  cfg_start : option jsstring;
  cfg_end : option jsstring;
  cfg_planner : option jsstring
}.

Definition Cities := list (jsstring * CityConfig).

(** The own property of [cities] named [city]. *)
Fixpoint own_property (cities : Cities) (city : jsstring) : option CityConfig :=
  match cities with
  | [] => None
  | (k, cfg) :: r => if bool_decide (k = city) then Some cfg else own_property r city
  end.

(** The names every object inherits from [Object.prototype]. *)
Definition prototype_names : list jsstring :=
  [str "constructor"; str "__defineGetter__"; str "__defineSetter__";
   str "hasOwnProperty"; str "__lookupGetter__"; str "__lookupSetter__";
   str "isPrototypeOf"; str "propertyIsEnumerable"; str "toString";
   str "valueOf"; str "__proto__"; str "toLocaleString"].

Definition inherited (name : jsstring) : bool :=
  existsb (fun n => bool_decide (n = name)) prototype_names.

(** What [cities[name]] is for an inherited name: a function of the
    prototype, or the prototype itself.  It is truthy and has none of the
    properties the gate reads. *)
Definition prototype_member : CityConfig :=
  {| cfg_token := None; cfg_start := None; cfg_end := None; cfg_planner := None |}.

(** [function getCityConfig(city) { return cities[city] || null; }]:
    [cities] is the object [JSON.parse] returned, so the lookup finds its own
    property of that name and, failing that, the inherited one. *)
Definition getCityConfig (cities : Cities) (city : jsstring) : option CityConfig :=
  match own_property cities city with
  | Some cfg => Some cfg
  | None => if inherited city then Some prototype_member else None
  end.

(** The query string of a gated request: each parameter as the string its
    [toString()] gives, [None] when the parameter is absent. *)
Record Request := {
  query_city : option jsstring;
  query_token : option jsstring
}.

(** What the gate does with a request.  The names are those of the
    specification; the source answers 404 "Unknown city.", 403 with
    [closed.html] ([sendClosed]), 401, or calls [next()] with [req.city] and
    [req.planner] set. *)
Inductive Outcome :=
| UnknownTenant
| ServiceSuspended
| InvalidToken
| Pass (city : jsstring) (planner : option jsstring).

Section Gate.

(** [new Date(iso).valueOf()], [None] for the invalid date. *)
Variable parseDate : jsstring -> option Z.

(** [isWithinWindow(now, startIso, endIso)]; a comparison with the invalid
    date is false. *)
Definition isWithinWindow (now : Z) (startIso endIso : option jsstring) : bool :=
  if negb (truthy_opt startIso) || negb (truthy_opt endIso) then true
  else
    match parseDate (or_empty startIso), parseDate (or_empty endIso) with
    | Some st, Some en => (st <=? now)%Z && (now <=? en)%Z
    | _, _ => false
    end.

(** The body of [gate], with the value [req.planner] receives left as a
    parameter: the two revisions differ there only. *)
Definition gate_with (planner_of : CityConfig -> option jsstring)
    (cities : Cities) (runtimeAccessEnabled : bool) (now : Z)
    (req : Request) : Outcome :=
  let cityRaw := trim (toLowerCase (or_empty (query_city req))) in
  let tokenQ := trim (or_empty (query_token req)) in
  match getCityConfig cities cityRaw with
  | None => UnknownTenant
  | Some cfg =>
      if negb runtimeAccessEnabled then ServiceSuspended
      else if negb (truthy tokenQ) || bool_decide (Some tokenQ <> cfg_token cfg)
      then InvalidToken
      else if negb (isWithinWindow now (cfg_start cfg) (cfg_end cfg))
      then ServiceSuspended
      else Pass cityRaw (planner_of cfg)
  end.

End Gate.

(** The tenant key and the token the gate works with: [cityRaw] and
    [tokenQ]. *)
Definition city_of (req : Request) : jsstring :=
  trim (toLowerCase (or_empty (query_city req))).
Definition token_of (req : Request) : jsstring :=
  trim (or_empty (query_token req)).

(** ** The operator interface *)

(** What the toggle route gets of the body of a request.  The route reads
    the stream of the request itself, after [app.use(express.json())]:
    - [Consumed]: the request has a JSON content type and a body, as the one
      the admin page sends: [express.json()] has read the stream to its end
      before the route, so the listeners the route adds for ["data"] and
      ["end"] are never called;
    - otherwise the route reads the body, and [!!JSON.parse(body).enabled]
      throws ([BadJSON]) or has a truth value ([Enabled]); an empty body is
      [Enabled false]. *)
Inductive ToggleBody :=
| Consumed
| BadJSON
| Enabled (b : bool).

(** A request that reaches the route [/admin/toggle]; [body_key] is
    [req.body?.key].  (A request whose body [express.json()] refuses is
    answered by the error handler of Express and reaches neither
    [adminAuth] nor the route.) *)
Record AdminRequest := {
  query_key : option jsstring;
  body_key : option jsstring;
  toggle_body : ToggleBody
}.

(** [(req.query.key || req.body?.key || "").toString()] *)
Definition presented_key (req : AdminRequest) : jsstring :=
  if truthy_opt (query_key req) then or_empty (query_key req)
  else or_empty (body_key req).

(** [adminAuth]: [true] when [next()] is called, [false] for the 401. *)
Definition adminAuth (ADMIN_KEY : jsstring) (req : AdminRequest) : bool :=
  negb (negb (truthy ADMIN_KEY) || bool_decide (presented_key req <> ADMIN_KEY)).

(** The answers of the route: 401, 400 "Bad JSON", [{ enabled }], or none
    at all when the handler is never called back. *)
Inductive AdminResponse :=
| AdminUnauthorized
| AdminBadJSON
| AdminEnabled (b : bool)
| AdminNoAnswer.

(** [app.post("/admin/toggle", adminAuth, ...)] on the process-wide flag
    [runtimeAccessEnabled]: the new flag and the response. *)
Definition admin_toggle (ADMIN_KEY : jsstring) (runtimeAccessEnabled : bool)
    (req : AdminRequest) : bool * AdminResponse :=
  if adminAuth ADMIN_KEY req then
    match toggle_body req with
    | Enabled val => (val, AdminEnabled val)
    | BadJSON => (runtimeAccessEnabled, AdminBadJSON)
    | Consumed => (runtimeAccessEnabled, AdminNoAnswer)
    end
  else (runtimeAccessEnabled, AdminUnauthorized).

(** The flag after a sequence of toggle requests, with the responses. *)
Fixpoint admin_run (ADMIN_KEY : jsstring) (runtimeAccessEnabled : bool)
    (reqs : list AdminRequest) : bool * list AdminResponse :=
  match reqs with
  | [] => (runtimeAccessEnabled, [])
  | r :: rest =>
      let '(flag, resp) := admin_toggle ADMIN_KEY runtimeAccessEnabled r in
      let '(flag', resps) := admin_run ADMIN_KEY flag rest in
      (flag', resp :: resps)
  end.

(** ** The relevance scorer *)

(** Prepend a character to the first piece of a split. *)
Definition cons_head (c : N) (l : list jsstring) : list jsstring :=
  match l with
  | p :: ps => (c :: p) :: ps
  | [] => [[c]]
  end.

(** [s.split(re)] for a regular expression [re] matching the non-empty runs
    of separator characters ([/[^a-z0-9]+/i]); [in_sep] tells that the
    previous character was a separator. *)
Fixpoint split_runs (sep : N -> bool) (in_sep : bool) (s : jsstring)
    : list jsstring :=
  match s with
  | [] => [[]]
  | c :: r =>
      if sep c then
        if in_sep then split_runs sep true r else [] :: split_runs sep true r
      else cons_head c (split_runs sep false r)
  end.

Definition mem_string (x : jsstring) (l : list jsstring) : bool :=
  existsb (fun y => bool_decide (x = y)) l.

(** [Array.from(new Set(l))]: the first occurrence of each element, in
    order; [seen] holds the elements already in the set. *)
Fixpoint set_from (seen l : list jsstring) : list jsstring :=
  match l with
  | [] => []
  | x :: r =>
      if mem_string x seen then set_from seen r
      else x :: set_from (x :: seen) r
  end.

(** The query terms: [Array.from(new Set(q.split(/[^a-z0-9]+/i)
    .filter(Boolean).map(s => s.toLowerCase())))] with [q] the lower-cased
    question (the second revision omits the [map], which changes nothing on a
    lower-cased [q]). *)
Definition query_terms (question : option jsstring) : list jsstring :=
  let q := toLowerCase (or_empty question) in
  set_from []
    (map toLowerCase
       (List.filter (fun p => truthy p) (split_runs (fun c => negb (is_alnum c)) false q))).

(** The metacharacters quoted by [escapeReg]: [. * + ? ^ $ { } ( ) | [ ] \]. *)
Definition is_meta (c : N) : bool :=
  existsb (N.eqb c) (str ".*+?^${}()|[]\").

(** [escapeReg]: a backslash before every metacharacter. *)
Fixpoint escapeReg (s : jsstring) : jsstring :=
  match s with
  | [] => []
  | c :: r => if is_meta c then 92%N :: c :: escapeReg r else c :: escapeReg r
  end.

Definition is_word_opt (o : option N) : bool :=
  match o with Some c => is_word c | None => false end.

(** The assertion [\b] between two neighbours (absent at either end of the
    input): exactly one of them is a word character. *)
Definition boundary (a b : option N) : bool :=
  xorb (is_word_opt a) (is_word_opt b).

(** The pattern [\b<t>\b] matches at the head of [s], [prev] being the
    character before it.  [escapeReg] makes the pattern match the non-empty
    text [t] itself. *)
Definition word_at (t : jsstring) (prev : option N) (s : jsstring) : bool :=
  boundary prev (head s) && startsWith t s
  && boundary (last t) (nth_error s (length t)).

(** [(lower.match(new RegExp(`\\b${escapeReg(t)}\\b`, "g")) || []).length]:
    the scan of a global match, which resumes after each match; [skip] counts
    the characters of the current match still to pass. *)
Fixpoint count_matches (t : jsstring) (prev : option N) (skip : nat)
    (s : jsstring) : nat :=
  match s with
  | [] => 0
  | c :: s' =>
      match skip with
      | S k => count_matches t (Some c) k s'
      | O =>
          if word_at t prev s
          then S (count_matches t (Some c) (length t - 1) s')
          else count_matches t (Some c) 0 s'
      end
  end.

Definition word_hits (t lower : jsstring) : nat := count_matches t None 0 lower.

(** The inner loop over the terms: terms shorter than 3 are skipped. *)
Fixpoint term_hits (terms : list jsstring) (lower : jsstring) : nat :=
  match terms with
  | [] => 0
  | t :: r =>
      (if length t <? 3 then 0 else word_hits t lower) + term_hits r lower
  end.

Definition bonus_terms : list jsstring :=
  [str "use"; str "permitted"; str "special"; str "parking";
   str "definition"; str "district"; str "table"].

(** The second loop: 0.25, one quarter unit, for each bonus term included. *)
Fixpoint bonus_quarters (bonus : list jsstring) (lower : jsstring) : nat :=
  match bonus with
  | [] => 0
  | b :: r => (if includes b lower then 1 else 0) + bonus_quarters r lower
  end.

(** An element of [scored]; [score] is in quarter units. *)
Record Scored := {
  file : jsstring;
  text : jsstring;
  score : nat
}.

(** The body of the loop over [Object.entries]. *)
Definition score_entry (terms : list jsstring) (e : jsstring * jsstring) : Scored :=
  let lower := toLowerCase (snd e) in
  {| file := fst e;
     text := snd e;
     score := 4 * term_hits terms lower + bonus_quarters bonus_terms lower |}.

Definition score_all (all : list (jsstring * jsstring))
    (question : option jsstring) : list Scored :=
  map (score_entry (query_terms question)) all.

(** [scored.sort((a, b) => b.score - a.score)].  [Array.prototype.sort] is
    stable; it is embedded as the insertion sort that places an element
    before the first one of a score not above its own. *)
Fixpoint insert_scored (x : Scored) (l : list Scored) : list Scored :=
  match l with
  | [] => [x]
  | y :: r => if score x <? score y then y :: insert_scored x r else x :: l
  end.

Fixpoint sort_scored (l : list Scored) : list Scored :=
  match l with
  | [] => []
  | x :: r => insert_scored x (sort_scored r)
  end.

(** ** The context assembler *)

Definition text_length (s : Scored) : Z := Z.of_nat (length (text s)).

Definition newline : N := 10.

(** [`--- ${s.file} ---\n${s.text.trim()}\n`] *)
Definition block (s : Scored) : jsstring :=
  str "--- " ++ file s ++ str " ---" ++ [newline] ++ trim (text s) ++ [newline].

(** [parts.join(sep)] *)
Fixpoint join (sep : jsstring) (parts : list jsstring) : jsstring :=
  match parts with
  | [] => []
  | [p] => p
  | p :: r => p ++ sep ++ join sep r
  end.

(** The sum of [s.text.length] over a list of documents. *)
Definition total_length (l : list Scored) : Z :=
  fold_right (fun s acc => (text_length s + acc)%Z) 0%Z l.

(** ** Citation markers *)

(** The two brackets of a citation marker. *)
Definition open_bracket : N := 91.
Definition close_bracket : N := 93.

Definition is_close (c : N) : bool := N.eqb c close_bracket.
Definition is_open (c : N) : bool := N.eqb c open_bracket.

(** The characters before the first closing bracket, and those after it. *)
Fixpoint span_close (s : jsstring) : option (jsstring * jsstring) :=
  match s with
  | [] => None
  | c :: r =>
      if is_close c then Some ([], r)
      else
        match span_close r with
        | Some (f, rest) => Some (c :: f, rest)
        | None => None
        end
  end.

(** [f] matches [[^\]]+\.txt], given that it holds no closing bracket. *)
Definition file_name_ok (f : jsstring) : bool :=
  endsWith (str ".txt") f && (5 <=? length f).

(** The pattern [/\[([^\]]+\.txt)\]/] matches at the head of [s]: the
    captured file name and the input after the match.  The class [[^\]]]
    cannot pass a closing bracket, so the match ends at the first one. *)
Definition marker_at (s : jsstring) : option (jsstring * jsstring) :=
  match s with
  | [] => None
  | c :: r =>
      if is_open c then
        match span_close r with
        | Some (f, rest) => if file_name_ok f then Some (f, rest) else None
        | None => None
        end
      else None
  end.

(** [text.replace(/\[([^\]]+\.txt)\]/g, (_, f) => r(f))]: the scan of a
    global replace, which resumes after each match; [skip] counts the
    characters of the current match still to pass. *)
Fixpoint replace_markers (r : jsstring -> jsstring) (skip : nat) (s : jsstring)
    : jsstring :=
  match s with
  | [] => []
  | c :: s' =>
      match skip with
      | S k => replace_markers r k s'
      | O =>
          match marker_at s with
          | Some (f, _) => r f ++ replace_markers r (S (length f)) s'
          | None => c :: replace_markers r 0 s'
          end
      end
  end.

(** The text holds a citation marker: the pattern matches somewhere. *)
Fixpoint has_marker (s : jsstring) : bool :=
  match s with
  | [] => false
  | _ :: r =>
      match marker_at s with
      | Some _ => true
      | None => has_marker r
      end
  end.

(** The file names captured by the scan, in order. *)
Fixpoint marker_names (skip : nat) (s : jsstring) : list jsstring :=
  match s with
  | [] => []
  | _ :: s' =>
      match skip with
      | S k => marker_names k s'
      | O =>
          match marker_at s with
          | Some (f, _) => f :: marker_names (S (length f)) s'
          | None => marker_names 0 s'
          end
      end
  end.

(** [f.replace(/\.txt$/i, "")] *)
Definition strip_txt (f : jsstring) : jsstring :=
  if endsWith (str ".txt") (toLowerCase f) then firstn (length f - 4) f else f.

(** A value of the index: [{ article, title }]. *)
Record Meta := {
  article : option jsstring;
  title : option jsstring
}.

(** The em dash of the label, U+2014. *)
Definition em_dash : jsstring := str "—".

(** [index.get(f) || index.get(f.trim())] *)
Definition lookup_meta (index : gmap jsstring Meta) (f : jsstring) : option Meta :=
  match index !! f with
  | Some m => Some m
  | None => index !! trim f
  end.

(** The callback of the replace when the index has entries. *)
Definition label (index : gmap jsstring Meta) (f : jsstring) : jsstring :=
  match lookup_meta index f with
  | None => strip_txt f
  | Some m =>
      let a := or_empty (article m) in
      let t := or_empty (title m) in
      let aLabel := if truthy a then str "Article " ++ a else str "Article" in
      trim (aLabel ++ str " " ++ em_dash ++ str " " ++ t)
  end.

(** ** The file system *)

(** The directory [content/<city>] as [readdirSync] finds it. *)
Inductive DirState :=
| NoDirectory
| Unreadable
| Listing (names : list jsstring).

Record FileSystem := {
  fs_dir : jsstring -> DirState;
  (** [content/<city>/<name>], [None] when [readFileSync] throws *)
  fs_file : jsstring -> jsstring -> option jsstring
}.

(** [read]: the text of the file, the empty string when the read throws. *)
Definition read (fs : FileSystem) (city name : jsstring) : jsstring :=
  or_empty (fs_file fs city name).

Definition is_txt (f : jsstring) : bool := endsWith (str ".txt") (toLowerCase f).

(** [s.split(d)] for a one-character separator. *)
Fixpoint split_char (d : N) (s : jsstring) : list jsstring :=
  match s with
  | [] => [[]]
  | c :: r => if N.eqb c d then [] :: split_char d r else cons_head c (split_char d r)
  end.

Definition carriage_return : N := 13.

(** [raw.split(/\r?\n/)] *)
Fixpoint split_lines (s : jsstring) : list jsstring :=
  match s with
  | [] => [[]]
  | c :: r =>
      if N.eqb c newline then [] :: split_lines r
      else
        match r with
        | n :: r' =>
            if N.eqb c carriage_return && N.eqb n newline
            then [] :: split_lines r'
            else cons_head c (split_lines r)
        | [] => [[c]]
        end
  end.

(** [raw.split(/\r?\n/).filter(Boolean)] with the fields of each line
    trimmed: [line.split(",").map(s => s.trim())]. *)
Definition index_rows (raw : jsstring) : list (list jsstring) :=
  map (fun line => map trim (split_char 44%N line))
      (List.filter (fun line => truthy line) (split_lines raw)).

Module AdminOverride.

(** [gate]: [req.planner = cfg.planner]. *)
Definition gate (parseDate : jsstring -> option Z) :=
  gate_with parseDate cfg_planner.

(** [loadAll]: the entries of the object, in the order of the listing (a
    directory lists each name once). *)
Definition loadAll (fs : FileSystem) (city : jsstring)
    : list (jsstring * jsstring) :=
  match fs_dir fs city with
  | Listing names => map (fun f => (f, read fs city f)) (List.filter is_txt names)
  | NoDirectory | Unreadable => []
  end.

(** The body of the loop of [loadIndex] on one line. *)
Definition add_row (out : gmap jsstring Meta) (cols : list jsstring)
    : gmap jsstring Meta :=
  match cols with
  | file :: article :: title :: _ =>
      if is_txt file
      then <[file := {| article := Some article; title := Some title |}]> out
      else out
  | _ => out
  end.

Definition loadIndex (fs : FileSystem) (city : jsstring) : gmap jsstring Meta :=
  let raw := read fs city (str "index.csv") in
  if negb (truthy (trim raw)) then ∅
  else fold_left add_row (index_rows raw) ∅.

(** [prettyCitations], the index given. *)
Definition rewrite_with (index : gmap jsstring Meta) (text : jsstring) : jsstring :=
  if size index =? 0 then replace_markers strip_txt 0 text
  else replace_markers (label index) 0 text.

Definition prettyCitations (fs : FileSystem) (city text : jsstring) : jsstring :=
  rewrite_with (loadIndex fs city) text.

(** The last loop of [sliceByKeywords]: the blocks pushed on [out], from
    the running [total]. *)
Fixpoint push_blocks (maxChars total : Z) (scored : list Scored)
    : list jsstring :=
  match scored with
  | [] => []
  | s :: r =>
      if (maxChars <=? total)%Z then []
      else block s :: push_blocks maxChars (total + text_length s) r
  end.

Definition assemble (maxChars : Z) (scored : list Scored) : jsstring :=
  join [newline] (push_blocks maxChars 0 scored).

Definition sliceByKeywords (allFilesMap : list (jsstring * jsstring))
    (question : option jsstring) (maxChars : Z) : jsstring :=
  assemble maxChars (sort_scored (score_all allFilesMap question)).

End AdminOverride.

Module RobustErrors.

(** [cfg.planner || "Senior Planner"] *)
Definition planner_or_default (cfg : CityConfig) : option jsstring :=
  Some (if truthy_opt (cfg_planner cfg) then or_empty (cfg_planner cfg)
        else str "Senior Planner").

(** [gate]: [req.planner = cfg.planner || "Senior Planner"]. *)
Definition gate (parseDate : jsstring -> option Z) :=
  gate_with parseDate planner_or_default.

(** [loadAll]; [None] when [readdirSync], which no handler guards here,
    throws. *)
Definition loadAll (fs : FileSystem) (city : jsstring)
    : option (list (jsstring * jsstring)) :=
  match fs_dir fs city with
  | NoDirectory => Some []
  | Unreadable => None
  | Listing names => Some (map (fun f => (f, read fs city f)) (List.filter is_txt names))
  end.

(** The body of the loop of [loadIndex] on one line: the destructuring
    [[file, article, title]] leaves a missing field undefined. *)
Definition add_row (out : gmap jsstring Meta) (cols : list jsstring)
    : gmap jsstring Meta :=
  match cols with
  | [] => out
  | file :: rest =>
      if is_txt file
      then <[file := {| article := nth_error rest 0; title := nth_error rest 1 |}]> out
      else out
  end.

Definition loadIndex (fs : FileSystem) (city : jsstring) : gmap jsstring Meta :=
  let raw := read fs city (str "index.csv") in
  if negb (truthy (trim raw)) then ∅
  else fold_left add_row (index_rows raw) ∅.

(** [prettyCitations], the index given. *)
Definition rewrite_with (index : gmap jsstring Meta) (text : jsstring) : jsstring :=
  replace_markers (label index) 0 text.

Definition prettyCitations (fs : FileSystem) (city text : jsstring) : jsstring :=
  rewrite_with (loadIndex fs city) text.

(** [`--- ${s.file} ---\n${(s.text||"").trim()}\n\n`] *)
Definition block2 (s : Scored) : jsstring := block s ++ [newline].

(** The last loop of [sliceByKeywords]: the text appended to [out], from
    the running [total]. *)
Fixpoint append_blocks (maxChars total : Z) (scored : list Scored)
    : jsstring :=
  match scored with
  | [] => []
  | s :: r =>
      if (maxChars <=? total)%Z then []
      else block2 s ++ append_blocks maxChars (total + text_length s) r
  end.

Definition assemble (maxChars : Z) (scored : list Scored) : jsstring :=
  append_blocks maxChars 0 scored.

Definition sliceByKeywords (all : list (jsstring * jsstring))
    (question : option jsstring) (maxChars : Z) : jsstring :=
  assemble maxChars (sort_scored (score_all all question)).

End RobustErrors.

(** The revision with per-city pages ([src/server.js]) resolves a city by
    comparing lower-cased keys. *)
Module PerCityPages.

(** [getCityConfig(name)]: [Object.keys(cities).find(k => k.toLowerCase()
    === wanted)], then [{ key, cfg: cities[key] }]. *)
Definition getCityConfig (cities : Cities) (name : option jsstring)
    : option (jsstring * option CityConfig) :=
  let wanted := toLowerCase (trim (or_empty name)) in
  match find (fun k => bool_decide (toLowerCase k = wanted)) (map fst cities) with
  | Some key => if truthy key then Some (key, own_property cities key) else None
  | None => None
  end.

End PerCityPages.

(** ** The process *)

(** The requests that read or write [runtimeAccessEnabled]: the gated routes
    and the toggle route. *)
Inductive Event :=
| Gated (now : Z) (req : Request)
| Toggle (req : AdminRequest).

Inductive Answer :=
| GateAnswer (o : Outcome)
| ToggleAnswer (r : AdminResponse).

(** One request served: the flag after it and the answer.  [gate] is the
    gate of either revision, applied to the flag; it only reads the flag. *)
Definition serve (gate : bool -> Z -> Request -> Outcome) (ADMIN_KEY : jsstring)
    (runtimeAccessEnabled : bool) (e : Event) : bool * Answer :=
  match e with
  | Gated now req => (runtimeAccessEnabled, GateAnswer (gate runtimeAccessEnabled now req))
  | Toggle req =>
      let '(flag, resp) := admin_toggle ADMIN_KEY runtimeAccessEnabled req in
      (flag, ToggleAnswer resp)
  end.

(** The flag after a sequence of requests, from its initial value. *)
Fixpoint serve_all (gate : bool -> Z -> Request -> Outcome) (ADMIN_KEY : jsstring)
    (runtimeAccessEnabled : bool) (events : list Event) : bool :=
  match events with
  | [] => runtimeAccessEnabled
  | e :: rest =>
      serve_all gate ADMIN_KEY (fst (serve gate ADMIN_KEY runtimeAccessEnabled e)) rest
  end.

(** ** Statements of the specification, for comparison with the code *)

Definition opt_class (cls : N -> bool) (o : option N) : bool :=
  match o with Some c => cls c | None => false end.

(** The whole-word occurrences of [t] in [s], [prev] being the character
    before [s]: the positions where [t] starts with no character of the class
    [cls] right before it or right after it. *)
Fixpoint occurrences (cls : N -> bool) (t : jsstring) (prev : option N)
    (s : jsstring) : nat :=
  match s with
  | [] => 0
  | c :: r =>
      (if negb (opt_class cls prev) && startsWith t s
          && negb (opt_class cls (nth_error s (length t)))
       then 1 else 0)
      + occurrences cls t (Some c) r
  end.

(** The character before the text that follows [u]. *)
Definition last_or (prev : option N) (u : jsstring) : option N :=
  match last u with Some c => Some c | None => prev end.

(** The sum of the whole-word occurrences over the terms of length 3 and
    more. *)
Definition whole_word_sum (cls : N -> bool) (terms : list jsstring)
    (lower : jsstring) : nat :=
  list_sum (map (fun t => occurrences cls t None lower)
                (List.filter (fun t => 3 <=? length t) terms)).

(** The number of bonus terms the text includes. *)
Definition bonus_count (lower : jsstring) : nat :=
  length (List.filter (fun b => includes b lower) bonus_terms).

(** The score of a document in quarter units, as the specification words it:
    the occurrences count in full, each bonus term for 0.25. *)
Definition stated_score (cls : N -> bool) (terms : list jsstring)
    (doc : jsstring) : nat :=
  4 * whole_word_sum cls terms (toLowerCase doc) + bonus_count (toLowerCase doc).

(** The lower-cased tokens of the question: its maximal runs of letters and
    digits. *)
Definition query_tokens (question : option jsstring) : list jsstring :=
  List.filter (fun p => truthy p)
    (split_runs (fun c => negb (is_alnum c)) false (toLowerCase (or_empty question))).

(** The order of the sorted list: scores descend. *)
Definition by_score_desc (a b : Scored) : Prop := score b <= score a.

(** The documents of score [n], in the order of the list. *)
Definition of_score (n : nat) (l : list Scored) : list Scored :=
  List.filter (fun d => score d =? n) l.

(** The documents the assembling loop reaches before it leaves. *)
Fixpoint appended (maxChars total : Z) (scored : list Scored) : list Scored :=
  match scored with
  | [] => []
  | s :: r =>
      if (maxChars <=? total)%Z then []
      else s :: appended maxChars (total + text_length s) r
  end.

Definition no_open (s : jsstring) : bool := forallb (fun c => negb (is_open c)) s.
Definition no_close (s : jsstring) : bool := forallb (fun c => negb (is_close c)) s.

(** An opening bracket is still waiting for its closing bracket at the end
    of [s]; [p] tells whether one was waiting before [s]. *)
Fixpoint pending (p : bool) (s : jsstring) : bool :=
  match s with
  | [] => p
  | c :: r =>
      pending (if is_open c then true else if is_close c then false else p) r
  end.

(** ** The rest of the two gate revisions *)

(** The initial value of [runtimeAccessEnabled]:
    [String(process.env.ACCESS_ENABLED ?? "true").toLowerCase() !== "false"]. *)
Definition initial_access (ACCESS_ENABLED : option jsstring) : bool :=
  negb (bool_decide
          (toLowerCase (match ACCESS_ENABLED with
                        | Some s => s
                        | None => str "true"
                        end) = str "false")).

(** The value a request writes to the flag, if it writes one: only the
    toggle route assigns [runtimeAccessEnabled]. *)
Definition flag_write (ADMIN_KEY : jsstring) (e : Event) : option bool :=
  match e with
  | Gated _ _ => None
  | Toggle req =>
      if adminAuth ADMIN_KEY req then
        match toggle_body req with
        | Enabled val => Some val
        | BadJSON | Consumed => None
        end
      else None
  end.

(** The last value written by a sequence of requests. *)
Fixpoint last_write (ADMIN_KEY : jsstring) (events : list Event) : option bool :=
  match events with
  | [] => None
  | e :: rest =>
      match last_write ADMIN_KEY rest with
      | Some b => Some b
      | None => flag_write ADMIN_KEY e
      end
  end.

(** The values the route [/api/respond] puts into the two messages of the
    chat completion; the text around them is fixed. *)
Record Prompt := {
  prompt_planner : option jsstring;
  prompt_city : jsstring;
  prompt_question : jsstring;
  prompt_context : jsstring
}.

(** What [client.chat.completions.create] does: it throws, or returns a
    completion whose [choices?.[0]?.message?.content] is a string or
    missing. *)
Inductive Completion :=
| CallThrows
| Content (c : option jsstring).

(** The response of the route: [res.json({ text })], or a status with
    [{ error }]. *)
Inductive Reply :=
| JsonText (text : jsstring)
| ErrorReply (status : nat) (error : jsstring).

Definition please_enter : jsstring := str "Please enter a question.".

Module AdminOverrideRoute.

(** The handler of [app.post("/api/respond", gate, ...)], after the gate
    has set [req.city] and [req.planner]; [user] is [req.body?.user]. *)
Definition respond (fs : FileSystem) (generate : Prompt -> Completion)
    (city : jsstring) (planner : option jsstring) (user : option jsstring)
    : Reply :=
  let plannerName :=
    if truthy_opt planner then or_empty planner else str "Senior Planner" in
  let question := firstn 2000 (or_empty user) in
  if negb (truthy (trim question)) then JsonText please_enter
  else
    let all := AdminOverride.loadAll fs city in
    let context := AdminOverride.sliceByKeywords all (Some question) 6000 in
    match generate {| prompt_planner := Some plannerName;
                      prompt_city := city;
                      prompt_question := question;
                      prompt_context := context |} with
    | CallThrows => ErrorReply 500 (str "Server error.")
    | Content c =>
        JsonText (AdminOverride.prettyCitations fs city (trim (or_empty c)))
    end.

End AdminOverrideRoute.

Module RobustErrorsRoute.

Definition no_excerpts : jsstring :=
  str "I don't see that in our excerpts for this city. You may need to ask a staff member or check the full code at City Hall.".

Definition server_error : jsstring := str "Server error while generating an answer.".

(** The handler of [app.post("/api/respond", gate, ...)]; [has_key] tells
    whether [process.env.OPENAI_API_KEY] is set and not empty. *)
Definition respond (fs : FileSystem) (has_key : bool)
    (generate : Prompt -> Completion)
    (city : jsstring) (planner : option jsstring) (user : option jsstring)
    : Reply :=
  if negb has_key then ErrorReply 500 (str "Missing OPENAI_API_KEY on server.")
  else
    let q := trim (firstn 2000 (or_empty user)) in
    if negb (truthy q) then JsonText please_enter
    else
      match RobustErrors.loadAll fs city with
      | None => ErrorReply 500 server_error
      | Some all =>
          let context := RobustErrors.sliceByKeywords all (Some q) 6000 in
          if negb (truthy (trim context)) then JsonText no_excerpts
          else
            match generate {| prompt_planner := planner;
                              prompt_city := city;
                              prompt_question := q;
                              prompt_context := context |} with
            | CallThrows => ErrorReply 500 server_error
            | Content c =>
                let answer := trim (or_empty c) in
                if negb (truthy answer)
                then ErrorReply 502 (str "No response from model.")
                else JsonText (RobustErrors.prettyCitations fs city answer)
            end
      end.

End RobustErrorsRoute.

(** ** The rest of the revision with per-city pages *)

Module CityPages.

(** [Object.keys(cities).map(k => k.toLowerCase())] *)
Definition citySlugs (cities : Cities) : list jsstring :=
  map toLowerCase (map fst cities).

(** [app.get("/:city", ...)]: [true] when [chat.html] is sent, [false] for
    the 404; [param] is [req.params.city]. *)
Definition city_page (cities : Cities) (param : option jsstring) : bool :=
  mem_string (toLowerCase (or_empty param)) (citySlugs cities).

(** A JSON object with string values, in enumeration order. *)
Definition JsonObject := list (jsstring * jsstring).

(** [obj[name]] *)
Fixpoint field (obj : JsonObject) (name : jsstring) : option jsstring :=
  match obj with
  | [] => None
  | (n, v) :: r => if bool_decide (n = name) then Some v else field r name
  end.

(** The rest pattern of [const { envKey, accessToken, ...rest } = cfg]. *)
Definition rest_of (cfg : JsonObject) : JsonObject :=
  List.filter
    (fun nv => negb (bool_decide (fst nv = str "envKey")
                     || bool_decide (fst nv = str "accessToken")))
    cfg.

(** The body of [app.get("/api/cities", ...)]: the object [safe]. *)
Definition api_cities (cities : list (jsstring * JsonObject))
    : list (jsstring * JsonObject) :=
  map (fun kc => (fst kc, rest_of (snd kc))) cities.

End CityPages.

(** ** Sample data for the examples *)

(** A date reader for the examples: a run of decimal digits is a time value
    in milliseconds, anything else the invalid date. *)
Fixpoint read_digits (acc : Z) (s : jsstring) : option Z :=
  match s with
  | [] => Some acc
  | c :: r =>
      if is_digit c
      then read_digits (10 * acc + (Z.of_N c - 48)) r
      else None
  end.

Definition sample_clock (s : jsstring) : option Z :=
  match s with
  | [] => None
  | _ :: _ => read_digits 0 s
  end.

Definition greenvale : CityConfig :=
  {| cfg_token := Some (str "gv-token");
     cfg_start := None;
     cfg_end := None;
     cfg_planner := Some (str "Avery") |}.

Definition riverton : CityConfig :=
  {| cfg_token := Some (str "rv-token");
     cfg_start := Some (str "1000");
     cfg_end := Some (str "2000");
     cfg_planner := None |}.

Definition sample_cities : Cities :=
  [(str "greenvale", greenvale); (str "riverton", riverton)].

(** A configuration whose key is capitalised, as the other revisions name
    their cities. *)
Definition capital_cities : Cities := [(str "Greenvale", greenvale)].

Definition request (city token : string) : Request :=
  {| query_city := Some (str city); query_token := Some (str token) |}.

Definition parking_index : gmap jsstring Meta :=
  {[ str "a.txt" := {| article := Some (str "4"); title := Some (str "Parking") |} ]}.

(** A city whose content directory cannot be listed and whose index has a
    row of two fields. *)
Definition short_row_fs : FileSystem :=
  {| fs_dir := fun _ => Unreadable;
     fs_file := fun _ name =>
       if bool_decide (name = str "index.csv") then Some (str "a.txt,4") else None |}.

(** A tenant whose window has a start that is no date. *)
Definition harbortown : CityConfig :=
  {| cfg_token := Some (str "hb-token");
     cfg_start := Some (str "soon");
     cfg_end := Some (str "2000");
     cfg_planner := None |}.

Definition more_cities : Cities :=
  [(str "greenvale", greenvale); (str "harbortown", harbortown)].

Definition sample_corpus : list (jsstring * jsstring) :=
  [(str "b.txt", str "No mention of pets.");
   (str "a.txt", str "Parking is permitted in District B.")].

(** A city with two documents and an index of two good rows for the same
    file. *)
Definition sample_fs : FileSystem :=
  {| fs_dir := fun _ => Listing [str "b.txt"; str "a.txt"; str "index.csv"];
     fs_file := fun _ name =>
       if bool_decide (name = str "index.csv")
       then Some (str "a.txt,3,Old" ++ [newline] ++ str "a.txt, 4 , Parking ")
       else if bool_decide (name = str "a.txt")
       then Some (str "Parking is permitted in District B.")
       else if bool_decide (name = str "b.txt")
       then Some (str "No mention of pets.")
       else None |}.

(** A generation collaborator for the examples: it cites a file. *)
Definition sample_generate (p : Prompt) : Completion :=
  Content (Some (str " See [a.txt]. ")).

Definition admin_request (key : string) (body : ToggleBody) : AdminRequest :=
  {| query_key := Some (str key); body_key := None; toggle_body := body |}.

(** A document whose text starts with white space, and a second one. *)
Definition padded_doc : Scored :=
  {| file := str "a.txt"; text := str "              ab"; score := 0 |}.

Definition second_doc : Scored :=
  {| file := str "b.txt"; text := str "cd"; score := 0 |}.


(** A city with no file at all. *)
Definition bare_fs : FileSystem :=
  {| fs_dir := fun _ => NoDirectory; fs_file := fun _ _ => None |}.

(** * Properties *)

(** ** Strings *)

Lemma startsWith_spec (p s : jsstring) :
  startsWith p s = true <-> exists r, s = p ++ r.
Proof.
  revert s; induction p as [|a p IH]; intros s; simpl.
  - split; [intros _; now exists s | trivial].
  - destruct s as [|b s].
    + split; [discriminate | intros [r Hr]; discriminate].
    + rewrite andb_true_iff, N.eqb_eq, IH. split.
      * intros [-> [r ->]]. now exists r.
      * intros [r Hr]. injection Hr as -> ->. split; [reflexivity | now exists r].
Qed.

Lemma startsWith_app (p r : jsstring) : startsWith p (p ++ r) = true.
Proof. apply startsWith_spec. now exists r. Qed.

Lemma endsWith_spec (suf s : jsstring) :
  endsWith suf s = true <-> exists x, s = x ++ suf.
Proof.
  unfold endsWith. rewrite startsWith_spec. split.
  - intros [r Hr]. exists (rev r).
    rewrite <- (rev_involutive s), Hr, rev_app_distr, rev_involutive. reflexivity.
  - intros [x ->]. exists (rev x). apply rev_app_distr.
Qed.

Lemma includes_spec (sub s : jsstring) :
  includes sub s = true <-> exists pre post, s = pre ++ sub ++ post.
Proof.
  induction s as [|c s IH]; simpl.
  - rewrite orb_false_r, startsWith_spec. split.
    + intros [r Hr]. now exists [], r.
    + intros [pre [post H]]. destruct pre; [now exists post | discriminate].
  - rewrite orb_true_iff, startsWith_spec, IH. split.
    + intros [[r Hr] | [pre [post ->]]].
      * now exists [], r.
      * now exists (c :: pre), post.
    + intros [[|a pre] [post H]].
      * left. now exists post.
      * right. injection H as -> ->. now exists pre, post.
Qed.

Lemma trimStart_incl (s : jsstring) (c : N) : In c (trimStart s) -> In c s.
Proof.
  induction s as [|a s IH]; simpl; [trivial|].
  destruct (is_space a); [right; auto | trivial].
Qed.

Lemma trim_incl (s : jsstring) (c : N) : In c (trim s) -> In c s.
Proof.
  unfold trim, trimEnd. intros H.
  apply trimStart_incl. apply in_rev. apply trimStart_incl. now apply in_rev.
Qed.

Lemma truthy_false (s : jsstring) : truthy s = false <-> s = [].
Proof. destruct s; simpl; split; congruence. Qed.

(** ** The access gate *)

Section GateProperties.

Variable parseDate : jsstring -> option Z.

Lemma gate_with_unfold planner_of cities enabled now req :
  gate_with parseDate planner_of cities enabled now req =
  match getCityConfig cities (city_of req) with
  | None => UnknownTenant
  | Some cfg =>
      if negb enabled then ServiceSuspended
      else if negb (truthy (token_of req))
              || bool_decide (Some (token_of req) <> cfg_token cfg)
      then InvalidToken
      else if negb (isWithinWindow parseDate now (cfg_start cfg) (cfg_end cfg))
      then ServiceSuspended
      else Pass (city_of req) (planner_of cfg)
  end.
Proof. reflexivity. Qed.

Lemma gate_with_disabled planner_of cities now req cfg :
  getCityConfig cities (city_of req) = Some cfg ->
  gate_with parseDate planner_of cities false now req = ServiceSuspended.
Proof. intros H. rewrite gate_with_unfold, H. reflexivity. Qed.

Lemma gate_with_bad_token planner_of cities now req cfg :
  getCityConfig cities (city_of req) = Some cfg ->
  token_of req = [] \/ Some (token_of req) <> cfg_token cfg
    \/ cfg_token cfg = Some [] ->
  gate_with parseDate planner_of cities true now req = InvalidToken.
Proof.
  intros H Hbad. rewrite gate_with_unfold, H. simpl.
  destruct (token_of req) as [|c t] eqn:Htok; [reflexivity|]. simpl.
  destruct Hbad as [Hbad | [Hbad | Hbad]]; [discriminate | |].
  - now rewrite bool_decide_eq_true_2.
  - rewrite bool_decide_eq_true_2; [reflexivity | rewrite Hbad; discriminate].
Qed.

Lemma gate_with_good_token planner_of cities now req cfg :
  getCityConfig cities (city_of req) = Some cfg ->
  token_of req <> [] ->
  cfg_token cfg = Some (token_of req) ->
  gate_with parseDate planner_of cities true now req =
  if isWithinWindow parseDate now (cfg_start cfg) (cfg_end cfg)
  then Pass (city_of req) (planner_of cfg)
  else ServiceSuspended.
Proof.
  intros H Hne Htok. rewrite gate_with_unfold, H. simpl.
  destruct (token_of req) as [|c t] eqn:E; [congruence|]. simpl.
  rewrite bool_decide_eq_false_2 by (rewrite Htok; tauto).
  now destruct (isWithinWindow _ _ _ _).
Qed.

Lemma isWithinWindow_absent now startIso endIso :
  startIso = None \/ endIso = None ->
  isWithinWindow parseDate now startIso endIso = true.
Proof.
  unfold isWithinWindow. intros [-> | ->]; simpl; [reflexivity|].
  now rewrite orb_true_r.
Qed.

Lemma isWithinWindow_inclusive now s e ts te :
  s <> [] -> e <> [] ->
  parseDate s = Some ts -> parseDate e = Some te ->
  isWithinWindow parseDate now (Some s) (Some e) = true <-> (ts <= now <= te)%Z.
Proof.
  intros Hs He Ps Pe. unfold isWithinWindow. simpl.
  destruct s; [congruence|]. destruct e; [congruence|]. simpl.
  rewrite Ps, Pe, andb_true_iff, !Z.leb_le. tauto.
Qed.

End GateProperties.

Lemma own_property_In (cities : Cities) (k : jsstring) :
  own_property cities k <> None <-> In k (map fst cities).
Proof.
  induction cities as [|[k' cfg] r IH]; simpl; [tauto|].
  destruct (bool_decide (k' = k)) eqn:E.
  - apply bool_decide_eq_true_1 in E. split; [now left | discriminate].
  - apply bool_decide_eq_false_1 in E. rewrite IH. tauto.
Qed.

(** The lookup fails exactly for a name that is neither a key of the
    configuration nor inherited. *)
Lemma getCityConfig_None (cities : Cities) (k : jsstring) :
  getCityConfig cities k = None
  <-> ~ In k (map fst cities) /\ inherited k = false.
Proof.
  unfold getCityConfig. rewrite <- own_property_In.
  destruct (own_property cities k) as [cfg|].
  - split; [discriminate|]. intros [H _]. exfalso. apply H. discriminate.
  - destruct (inherited k); split; try discriminate; try tauto.
    intros [_ H]. discriminate.
Qed.

(** A tenant with a token is an own key of the configuration. *)
Lemma getCityConfig_token (cities : Cities) (k : jsstring) (cfg : CityConfig) :
  getCityConfig cities k = Some cfg -> cfg_token cfg <> None ->
  In k (map fst cities).
Proof.
  unfold getCityConfig. intros R Ht. apply own_property_In.
  destruct (own_property cities k) as [cfg'|]; [discriminate|].
  destruct (inherited k); [|discriminate].
  injection R as <-. now contradiction Ht.
Qed.

(** The per-city revision resolves every configured key whatever the case
    of the key and of the request. *)
Lemma PerCityPages_resolves (cities : Cities) (k name : jsstring) :
  In k (map fst cities) -> k <> [] ->
  toLowerCase (trim name) = toLowerCase k ->
  PerCityPages.getCityConfig cities (Some name) <> None.
Proof.
  intros Hin Hk Heq. unfold PerCityPages.getCityConfig. simpl.
  destruct (find _ (map fst cities)) as [key|] eqn:F.
  - apply find_some in F as [_ F]. apply bool_decide_eq_true_1 in F.
    destruct key as [|c key]; [|discriminate].
    rewrite Heq in F. destruct k; [congruence | discriminate].
  - apply (find_none _ _ F) in Hin. apply bool_decide_eq_false_1 in Hin.
    congruence.
Qed.

(** C1: with the runtime access flag disabled the gate answers
    ServiceSuspended for every configured tenant and every presented token,
    valid or not: the kill switch is read before the token, so the answer
    does not depend on the token. *)
Theorem disabled_gate_suspends_whatever_the_token
    (parseDate : jsstring -> option Z) (cities : Cities) (now : Z)
    (req : Request) (cfg : CityConfig) :
  getCityConfig cities (city_of req) = Some cfg ->
  AdminOverride.gate parseDate cities false now req = ServiceSuspended /\
  RobustErrors.gate parseDate cities false now req = ServiceSuspended /\
  forall token : option jsstring,
    let req' := {| query_city := query_city req; query_token := token |} in
    AdminOverride.gate parseDate cities false now req'
      = AdminOverride.gate parseDate cities false now req /\
    RobustErrors.gate parseDate cities false now req'
      = RobustErrors.gate parseDate cities false now req.
Proof.
  intros H. unfold AdminOverride.gate, RobustErrors.gate.
  rewrite !(gate_with_disabled _ _ _ _ _ _ H). repeat split;
    now apply gate_with_disabled with (cfg := cfg).
Qed.

Lemma disabled_gate_suspends_witness :
  AdminOverride.gate sample_clock sample_cities false 1500
    (request "Riverton" "rv-token") = ServiceSuspended /\
  AdminOverride.gate sample_clock sample_cities false 1500
    (request "Riverton" "guess") = ServiceSuspended.
Proof.
  split.
  - apply (disabled_gate_suspends_whatever_the_token sample_clock sample_cities
             1500 (request "Riverton" "rv-token") riverton).
    vm_compute. reflexivity.
  - apply (disabled_gate_suspends_whatever_the_token sample_clock sample_cities
             1500 (request "Riverton" "guess") riverton).
    vm_compute. reflexivity.
Defined.

(** C2, as the code has it: the gate trims the presented token first.  For
    every configured tenant, with runtime access enabled, a presented token
    that is absent, or empty once trimmed, or not exactly equal (case
    included) to the configured token once trimmed, fails with InvalidToken;
    and when the configured token is the empty string every presented token
    fails with InvalidToken. *)
Theorem bad_token_is_invalid
    (parseDate : jsstring -> option Z) (cities : Cities) (now : Z)
    (req : Request) (cfg : CityConfig) :
  getCityConfig cities (city_of req) = Some cfg ->
  query_token req = None \/ token_of req = []
    \/ Some (token_of req) <> cfg_token cfg \/ cfg_token cfg = Some [] ->
  AdminOverride.gate parseDate cities true now req = InvalidToken /\
  RobustErrors.gate parseDate cities true now req = InvalidToken.
Proof.
  intros H Hbad.
  assert (Hbad' : token_of req = [] \/ Some (token_of req) <> cfg_token cfg
                  \/ cfg_token cfg = Some []).
  { destruct Hbad as [Hn | Hbad]; [|exact Hbad].
    left. unfold token_of. rewrite Hn. reflexivity. }
  split; now apply gate_with_bad_token with (cfg := cfg).
Qed.

Lemma bad_token_is_invalid_witness :
  AdminOverride.gate sample_clock sample_cities true 0
    (request "greenvale" "GV-TOKEN") = InvalidToken /\
  RobustErrors.gate sample_clock sample_cities true 0
    (request "greenvale" "GV-TOKEN") = InvalidToken.
Proof.
  apply (bad_token_is_invalid sample_clock sample_cities 0
           (request "greenvale" "GV-TOKEN") greenvale).
  - vm_compute. reflexivity.
  - right. right. left. vm_compute. discriminate.
Defined.

(** C2 as stated fails: a presented token that differs from the configured
    one by white space around it is not exactly equal to it, and passes. *)
Lemma padded_token_passes :
  query_token (request "greenvale" " gv-token") <> cfg_token greenvale /\
  getCityConfig sample_cities (city_of (request "greenvale" " gv-token"))
    = Some greenvale /\
  AdminOverride.gate sample_clock sample_cities true 0
    (request "greenvale" " gv-token") = Pass (str "greenvale") (Some (str "Avery")) /\
  RobustErrors.gate sample_clock sample_cities true 0
    (request "greenvale" " gv-token") = Pass (str "greenvale") (Some (str "Avery")).
Proof. vm_compute. repeat split. discriminate. Qed.

(** C5 fails on the code: the gate lower-cases the request and then looks
    the result up as it is, so a configured key with a capital letter is
    never resolved, although the request equals it up to case; the per-city
    revision, which compares lower-cased keys, resolves it. *)
Theorem capitalised_key_is_unknown :
  In (str "Greenvale") (map fst capital_cities) /\
  toLowerCase (trim (str "Greenvale")) = toLowerCase (str "Greenvale") /\
  AdminOverride.gate sample_clock capital_cities true 0
    (request "Greenvale" "gv-token") = UnknownTenant /\
  RobustErrors.gate sample_clock capital_cities true 0
    (request "Greenvale" "gv-token") = UnknownTenant /\
  AdminOverride.gate sample_clock capital_cities true 0
    (request "greenvale" "gv-token") = UnknownTenant /\
  PerCityPages.getCityConfig capital_cities (Some (str "Greenvale"))
    = Some (str "Greenvale", Some greenvale).
Proof. vm_compute. repeat split. now left. Qed.

(** C8: for a tenant with no configured window (a start or an end that is
    missing or empty) the time-window check passes at every timestamp, and
    so does the gate given enabled access and a correct token; with a
    configured window the check is inclusive: the gate passes at every
    timestamp of [start, end], the two bounds included, and fails with
    ServiceSuspended strictly outside. *)
Theorem window_check_is_inclusive
    (parseDate : jsstring -> option Z) (cities : Cities) (now : Z)
    (req : Request) (cfg : CityConfig) :
  getCityConfig cities (city_of req) = Some cfg ->
  token_of req <> [] ->
  cfg_token cfg = Some (token_of req) ->
  (truthy_opt (cfg_start cfg) = false \/ truthy_opt (cfg_end cfg) = false ->
   isWithinWindow parseDate now (cfg_start cfg) (cfg_end cfg) = true /\
   AdminOverride.gate parseDate cities true now req
     = Pass (city_of req) (cfg_planner cfg) /\
   RobustErrors.gate parseDate cities true now req
     = Pass (city_of req) (RobustErrors.planner_or_default cfg)) /\
  (forall (s e : jsstring) (ts te : Z),
     cfg_start cfg = Some s -> cfg_end cfg = Some e ->
     s <> [] -> e <> [] ->
     parseDate s = Some ts -> parseDate e = Some te ->
     ((ts <= now <= te)%Z ->
      AdminOverride.gate parseDate cities true now req
        = Pass (city_of req) (cfg_planner cfg) /\
      RobustErrors.gate parseDate cities true now req
        = Pass (city_of req) (RobustErrors.planner_or_default cfg)) /\
     ((ts <= te)%Z -> now = ts \/ now = te ->
      AdminOverride.gate parseDate cities true now req
        = Pass (city_of req) (cfg_planner cfg) /\
      RobustErrors.gate parseDate cities true now req
        = Pass (city_of req) (RobustErrors.planner_or_default cfg)) /\
     ((now < ts \/ te < now)%Z ->
      AdminOverride.gate parseDate cities true now req = ServiceSuspended /\
      RobustErrors.gate parseDate cities true now req = ServiceSuspended)).
Proof.
  intros H Hne Htok. unfold AdminOverride.gate, RobustErrors.gate.
  rewrite !(gate_with_good_token _ _ _ _ _ _ H Hne Htok). split.
  - intros Hno.
    assert (W : isWithinWindow parseDate now (cfg_start cfg) (cfg_end cfg) = true).
    { unfold isWithinWindow.
      destruct Hno as [-> | ->]; simpl; [reflexivity | now rewrite orb_true_r]. }
    rewrite W. auto.
  - intros s e ts te Hs He Hs0 He0 Ps Pe. rewrite Hs, He.
    pose proof (isWithinWindow_inclusive parseDate now s e ts te Hs0 He0 Ps Pe) as W.
    destruct (isWithinWindow parseDate now (Some s) (Some e)) eqn:E.
    + assert (Hin : (ts <= now <= te)%Z) by exact (proj1 W E).
      split; [auto|]. split; [auto|]. intros Hout. lia.
    + assert (Hn : ~ (ts <= now <= te)%Z).
      { intros X. apply (proj2 W) in X.
        pose proof (eq_trans (eq_sym E) X). discriminate. }
      split; [tauto|]. split; [|auto]. intros Hle Hb. exfalso. apply Hn. lia.
Qed.

Lemma window_check_is_inclusive_witness :
  AdminOverride.gate sample_clock sample_cities true 1000
    (request "riverton" "rv-token") = Pass (str "riverton") None /\
  AdminOverride.gate sample_clock sample_cities true 2001
    (request "riverton" "rv-token") = ServiceSuspended.
Proof.
  assert (R : getCityConfig sample_cities (city_of (request "riverton" "rv-token"))
              = Some riverton) by (vm_compute; reflexivity).
  assert (T : token_of (request "riverton" "rv-token") <> []) by (vm_compute; discriminate).
  assert (K : cfg_token riverton = Some (token_of (request "riverton" "rv-token")))
    by (vm_compute; reflexivity).
  assert (S : str "1000" <> []) by (vm_compute; discriminate).
  assert (E : str "2000" <> []) by (vm_compute; discriminate).
  split.
  - apply (proj2 (window_check_is_inclusive sample_clock sample_cities 1000
                    (request "riverton" "rv-token") riverton R T K)
             (str "1000") (str "2000") 1000%Z 2000%Z
             eq_refl eq_refl S E eq_refl eq_refl).
    + lia.
    + left. reflexivity.
  - apply (proj2 (window_check_is_inclusive sample_clock sample_cities 2001
                    (request "riverton" "rv-token") riverton R T K)
             (str "1000") (str "2000") 1000%Z 2000%Z
             eq_refl eq_refl S E eq_refl eq_refl).
    right. lia.
Defined.

(** C10: with ADMIN_KEY the empty string [adminAuth] rejects every request,
    the one presenting an empty key included (which equals the configured
    key), so every toggle request is answered 401 and the runtime access
    flag keeps its initial value whatever the requests. *)
Theorem empty_admin_key_fails_closed :
  (forall req : AdminRequest, adminAuth [] req = false) /\
  (forall body : ToggleBody,
     let req := {| query_key := None; body_key := None; toggle_body := body |} in
     presented_key req = [] /\ adminAuth [] req = false) /\
  (forall (flag : bool) (req : AdminRequest),
     admin_toggle [] flag req = (flag, AdminUnauthorized)) /\
  (forall (flag : bool) (reqs : list AdminRequest),
     admin_run [] flag reqs = (flag, map (fun _ => AdminUnauthorized) reqs)) /\
  (forall (gate : bool -> Z -> Request -> Outcome) (flag : bool)
          (events : list Event),
     serve_all gate [] flag events = flag).
Proof.
  assert (A : forall req, adminAuth [] req = false) by reflexivity.
  assert (T : forall flag req, admin_toggle [] flag req = (flag, AdminUnauthorized)).
  { intros flag req. unfold admin_toggle. now rewrite A. }
  split; [exact A|]. split; [intros body; split; [reflexivity | apply A]|].
  split; [exact T|]. split.
  - intros flag reqs. revert flag.
    induction reqs as [|r rest IH]; intros flag; cbn [admin_run map]; [reflexivity|].
    now rewrite T, IH.
  - intros gate flag events.
    induction events as [|e rest IH]; cbn [serve_all]; [reflexivity|].
    destruct e as [now req | req]; cbn [serve fst]; [exact IH|].
    now rewrite T.
Qed.

(** ** The context assembler *)

Lemma push_blocks_appended (maxChars total : Z) (scored : list Scored) :
  AdminOverride.push_blocks maxChars total scored
  = map block (appended maxChars total scored).
Proof.
  revert total. induction scored as [|s r IH]; intros total; simpl; [reflexivity|].
  destruct (maxChars <=? total)%Z; simpl; [reflexivity | now rewrite IH].
Qed.

Lemma append_blocks_appended (maxChars total : Z) (scored : list Scored) :
  RobustErrors.append_blocks maxChars total scored
  = concat (map RobustErrors.block2 (appended maxChars total scored)).
Proof.
  revert total. induction scored as [|s r IH]; intros total; simpl; [reflexivity|].
  destruct (maxChars <=? total)%Z; simpl; [reflexivity | now rewrite IH].
Qed.

Lemma total_length_nonneg (l : list Scored) : (0 <= total_length l)%Z.
Proof.
  induction l as [|s r IH]; simpl; [lia|]. unfold text_length. lia.
Qed.

(** The loop appends a prefix of the list: the shortest one whose texts
    reach the budget, or the whole list. *)
Lemma appended_prefix (maxChars : Z) (scored : list Scored) (total : Z) :
  exists k : nat,
    k <= length scored /\
    appended maxChars total scored = firstn k scored /\
    (forall j, j < k -> (total + total_length (firstn j scored) < maxChars)%Z) /\
    (k < length scored -> (maxChars <= total + total_length (firstn k scored))%Z).
Proof.
  revert total. induction scored as [|s r IH]; intros total.
  - exists 0. simpl. repeat split; lia.
  - simpl. destruct (maxChars <=? total)%Z eqn:E.
    + exists 0. simpl. apply Z.leb_le in E. repeat split; lia.
    + apply Z.leb_gt in E.
      destruct (IH (total + text_length s)%Z) as (k & Hk & Heq & Hlt & Hge).
      exists (S k). simpl. rewrite Heq. repeat split.
      * lia.
      * intros [|j] Hj; simpl; [lia|].
        specialize (Hlt j ltac:(lia)). lia.
      * intros Hk'. specialize (Hge ltac:(lia)). lia.
Qed.

Lemma total_length_sum (l : list Scored) :
  total_length l = Z.of_nat (list_sum (map (fun d => length (text d)) l)).
Proof.
  induction l as [|d l IH]; [reflexivity|].
  change (total_length (d :: l)) with (text_length d + total_length l)%Z.
  change (list_sum (map (fun d => length (text d)) (d :: l)))
    with (length (text d) + list_sum (map (fun d => length (text d)) l)).
  rewrite IH. unfold text_length. lia.
Qed.

(** The blocks of the second revision, written out. *)
Lemma block2_text (d : Scored) :
  RobustErrors.block2 d
  = str "--- " ++ file d ++ str " ---" ++ [newline] ++ trim (text d)
    ++ [newline] ++ [newline].
Proof. unfold RobustErrors.block2, block. now rewrite <- !app_assoc. Qed.

(** Joining the blocks with a newline gives the concatenation of the
    blocks, each followed by a newline, without its last newline. *)
Lemma join_removelast (l : list Scored) :
  join [newline] (map block l)
  = removelast (concat (map RobustErrors.block2 l)).
Proof.
  induction l as [|d l IH]; [reflexivity|].
  destruct l as [|d' l].
  - cbn [map join concat]. rewrite app_nil_r. unfold RobustErrors.block2.
    symmetry. apply removelast_last.
  - change (join [newline] (map block (d :: d' :: l)))
      with (block d ++ [newline] ++ join [newline] (map block (d' :: l))).
    rewrite IH.
    change (concat (map RobustErrors.block2 (d :: d' :: l)))
      with (RobustErrors.block2 d ++ concat (map RobustErrors.block2 (d' :: l))).
    rewrite removelast_app.
    + change (RobustErrors.block2 d) with (block d ++ [newline]).
      now rewrite <- app_assoc.
    + cbn [map concat]. rewrite block2_text. discriminate.
Qed.

(** C4, as the code has it: the total the loop checks is that of the full
    text lengths of the documents appended so far, as they are before
    trimming, while a block holds the trimmed text.  The assembler appends
    the blocks of a prefix of the ordered list, each made of the header
    line, the whole trimmed text and a newline (the second revision adds an
    empty line, the first joins the blocks by a newline): before each
    append the total of the text lengths of the documents appended so far
    (headers and delimiters not counted) is below maxChars, and the loop
    stops at the first document before which the total has reached
    maxChars; so the document that crosses the budget is appended whole and
    nothing follows it.  With maxChars = 10 and two documents of 20
    characters the context is the block of the first. *)
Theorem budget_is_checked_before_each_append (maxChars : Z) (scored : list Scored) :
  (exists k : nat,
     k <= length scored /\
     RobustErrors.assemble maxChars scored
       = concat (map (fun d => str "--- " ++ file d ++ str " ---" ++ [newline]
                               ++ trim (text d) ++ [newline] ++ [newline])
                     (firstn k scored)) /\
     AdminOverride.assemble maxChars scored
       = removelast (RobustErrors.assemble maxChars scored) /\
     (forall j, j < k ->
        (Z.of_nat (list_sum (map (fun d => length (text d)) (firstn j scored)))
         < maxChars)%Z) /\
     (k < length scored ->
        (maxChars
         <= Z.of_nat (list_sum (map (fun d => length (text d)) (firstn k scored))))%Z)) /\
  (forall d1 d2 : Scored,
     length (text d1) = 20 -> length (text d2) = 20 ->
     AdminOverride.assemble 10 [d1; d2]
       = str "--- " ++ file d1 ++ str " ---" ++ [newline]
         ++ trim (text d1) ++ [newline] /\
     RobustErrors.assemble 10 [d1; d2]
       = str "--- " ++ file d1 ++ str " ---" ++ [newline]
         ++ trim (text d1) ++ [newline] ++ [newline]).
Proof.
  split.
  - destruct (appended_prefix maxChars scored 0) as (k & Hk & Heq & Hlt & Hge).
    exists k. unfold AdminOverride.assemble, RobustErrors.assemble.
    rewrite push_blocks_appended, append_blocks_appended, Heq, join_removelast.
    split; [exact Hk|]. split.
    { f_equal. apply map_ext. exact block2_text. }
    split; [reflexivity|]. split.
    + intros j Hj. rewrite <- total_length_sum. exact (Hlt j Hj).
    + intros Hk'. rewrite <- total_length_sum. exact (Hge Hk').
  - intros d1 d2 H1 H2.
    unfold AdminOverride.assemble, RobustErrors.assemble.
    cbn [AdminOverride.push_blocks RobustErrors.append_blocks].
    unfold text_length. rewrite H1.
    change (10 <=? 0)%Z with false. change (10 <=? 0 + Z.of_nat 20)%Z with true.
    cbv iota. cbn [join]. rewrite app_nil_r, block2_text. unfold block.
    rewrite <- ?app_assoc. split; reflexivity.
Qed.

(** C4 as stated fails: the total is not that of the text appended.  The
    first document puts two characters of text into the context, fewer than
    maxChars = 10, yet the loop stops after it: the total counts the sixteen
    characters its text has before trimming. *)
Lemma untrimmed_length_is_counted :
  trim (text padded_doc) = str "ab" /\
  (Z.of_nat (length (trim (text padded_doc))) < 10)%Z /\
  length (text padded_doc) = 16 /\
  AdminOverride.assemble 10 [padded_doc; second_doc]
    = str "--- a.txt ---" ++ [newline] ++ str "ab" ++ [newline] /\
  RobustErrors.assemble 10 [padded_doc; second_doc]
    = str "--- a.txt ---" ++ [newline] ++ str "ab" ++ [newline] ++ [newline].
Proof. vm_compute. repeat split. Qed.

(** ** The relevance scorer *)

(** Decide the comparisons of a character class from the bounds at hand. *)
Ltac decide_class :=
  repeat match goal with
  | |- context [(?a =? ?b)%N] =>
      first [ rewrite (proj2 (N.eqb_neq a b)) by lia
            | rewrite (proj2 (N.eqb_eq a b)) by lia ]
  | |- context [(?a <=? ?b)%N] =>
      first [ rewrite (proj2 (N.leb_le a b)) by lia
            | rewrite (proj2 (N.leb_gt a b)) by lia ]
  end.

(** The code units [toLowerCase] changes. *)
Lemma lower_char_shifted (c : N) :
  is_upper c || is_upper_latin1 c = true ->
  (65 <= c <= 90)%N \/ ((192 <= c <= 222)%N /\ c <> 215%N).
Proof.
  unfold is_upper, is_upper_latin1.
  rewrite orb_true_iff, !andb_true_iff, negb_true_iff, !N.leb_le, N.eqb_neq. tauto.
Qed.

Lemma lower_char_idem (c : N) : lower_char (lower_char c) = lower_char c.
Proof.
  unfold lower_char at 2 3.
  destruct (is_upper c || is_upper_latin1 c) eqn:U; unfold lower_char.
  - apply lower_char_shifted in U. unfold is_upper, is_upper_latin1.
    destruct U as [U | [U U']]; decide_class; reflexivity.
  - now rewrite U.
Qed.

Lemma lower_char_alnum (c : N) : is_alnum (lower_char c) = is_alnum c.
Proof.
  unfold lower_char. destruct (is_upper c || is_upper_latin1 c) eqn:U; [|reflexivity].
  apply lower_char_shifted in U.
  unfold is_alnum, is_upper, is_lower, is_digit.
  destruct U as [U | [U U']]; decide_class; reflexivity.
Qed.

Lemma alnum_is_word (c : N) : is_alnum c = true -> is_word c = true.
Proof. unfold is_word. intros ->. reflexivity. Qed.

Lemma alnum_not_meta (c : N) : is_alnum c = true -> is_meta c = false.
Proof.
  intros H. unfold is_meta. destruct (existsb _ _) eqn:E; [|reflexivity].
  apply existsb_exists in E as (x & Hin & Ex). apply N.eqb_eq in Ex. subst x.
  vm_compute in Hin.
  repeat (destruct Hin as [<- | Hin]; [vm_compute in H; discriminate|]).
  destruct Hin.
Qed.

(** [escapeReg] leaves a text of letters and digits as it is. *)
Lemma escapeReg_alnum (t : jsstring) :
  Forall (fun c => is_alnum c = true) t -> escapeReg t = t.
Proof.
  induction 1 as [|c t Hc _ IH]; simpl; [reflexivity|].
  now rewrite (alnum_not_meta c Hc), IH.
Qed.

Lemma cons_head_In (c : N) (l : list jsstring) (p : jsstring) :
  In p (cons_head c l) -> (exists p', p = c :: p' /\ (In p' l \/ p' = [])) \/ In p l.
Proof.
  destruct l as [|q qs]; simpl.
  - intros [<- | []]. left. exists []. auto.
  - intros [<- | H]; [left; exists q; auto | right; auto].
Qed.

(** The pieces of a split hold no separator, and only characters of the
    text. *)
Lemma split_runs_pieces (sep : N -> bool) (s : jsstring) :
  forall (in_sep : bool) (p : jsstring),
    In p (split_runs sep in_sep s) ->
    Forall (fun c => sep c = false /\ In c s) p.
Proof.
  induction s as [|c s IH]; intros in_sep p; simpl.
  - intros [<- | []]. constructor.
  - destruct (sep c) eqn:E.
    + assert (H : In p (split_runs sep true s) \/ p = [] ->
                  Forall (fun c0 => sep c0 = false /\ In c0 (c :: s)) p).
      { intros [H | ->]; [|constructor].
        eapply Forall_impl; [exact (IH true p H)|]. simpl. intros x [? ?]. auto. }
      destruct in_sep; simpl; intros Hp; apply H; [tauto|].
      destruct Hp as [<- | Hp]; auto.
    + intros Hp. apply cons_head_In in Hp as [(p' & -> & Hp') | Hp].
      * constructor; [simpl; auto|].
        destruct Hp' as [Hp' | ->]; [|constructor].
        eapply Forall_impl; [exact (IH false p' Hp')|]. simpl. intros x [? ?]. auto.
      * eapply Forall_impl; [exact (IH false p Hp)|]. simpl. intros x [? ?]. auto.
Qed.

Lemma mem_string_In (x : jsstring) (l : list jsstring) :
  mem_string x l = true <-> In x l.
Proof.
  unfold mem_string. rewrite existsb_exists. split.
  - intros (y & Hy & E). apply bool_decide_eq_true_1 in E. now subst.
  - intros H. exists x. split; [exact H | now apply bool_decide_eq_true_2].
Qed.

Lemma set_from_In (l seen : list jsstring) (x : jsstring) :
  In x (set_from seen l) <-> In x l /\ ~ In x seen.
Proof.
  revert seen. induction l as [|y l IH]; intros seen; simpl; [tauto|].
  destruct (mem_string y seen) eqn:E.
  - apply mem_string_In in E. rewrite IH. split; [tauto|].
    intros [[-> | H] Hn]; tauto.
  - assert (Hy : ~ In y seen) by (rewrite <- mem_string_In, E; discriminate).
    simpl. rewrite IH. simpl. split.
    + intros [-> | [H Hn]]; tauto.
    + intros [[-> | H] Hn]; [now left|].
      destruct (decide (y = x)) as [-> | Hne]; [now left | right; tauto].
Qed.

Lemma set_from_NoDup (l seen : list jsstring) : List.NoDup (set_from seen l).
Proof.
  revert seen. induction l as [|y l IH]; intros seen; simpl; [constructor|].
  destruct (mem_string y seen); [apply IH|].
  constructor; [|apply IH]. rewrite set_from_In. simpl. tauto.
Qed.

Lemma toLowerCase_fixed (s : jsstring) :
  Forall (fun c => lower_char c = c) s -> toLowerCase s = s.
Proof.
  induction 1 as [|c s Hc _ IH]; simpl; [reflexivity|]. now rewrite Hc, IH.
Qed.

(** The tokens of the question are fixed by [toLowerCase], and made of
    letters and digits. *)
Lemma query_tokens_lower (question : option jsstring) (t : jsstring) :
  In t (query_tokens question) ->
  toLowerCase t = t /\ t <> [] /\ Forall (fun c => is_alnum c = true) t.
Proof.
  unfold query_tokens. rewrite filter_In. intros [Hp Ht].
  apply split_runs_pieces in Hp. repeat split.
  - apply toLowerCase_fixed. eapply Forall_impl; [exact Hp|].
    intros c [_ Hc]. unfold toLowerCase in Hc. apply in_map_iff in Hc as (c0 & <- & _).
    apply lower_char_idem.
  - intros ->. discriminate.
  - eapply Forall_impl; [exact Hp|]. intros c [Hc _].
    now apply negb_false_iff in Hc.
Qed.

Lemma query_terms_tokens (question : option jsstring) :
  query_terms question = set_from [] (query_tokens question).
Proof.
  unfold query_terms. f_equal. fold (query_tokens question).
  rewrite <- (map_id (query_tokens question)) at 2.
  apply map_ext_in. intros t Ht. now apply query_tokens_lower in Ht.
Qed.

(** The terms are the tokens, each once. *)
Lemma query_terms_dedup (question : option jsstring) :
  List.NoDup (query_terms question) /\
  forall t, In t (query_terms question) <-> In t (query_tokens question).
Proof.
  rewrite query_terms_tokens. split; [apply set_from_NoDup|].
  intros t. rewrite set_from_In. simpl. tauto.
Qed.

Lemma last_cons_word (a : N) (t : jsstring) :
  Forall (fun c => is_word c = true) (a :: t) ->
  is_word_opt (last (a :: t)) = true.
Proof.
  revert a. induction t as [|b t IH]; intros a H.
  - inversion H; subst. simpl. assumption.
  - inversion H; subst. change (last (a :: b :: t)) with (last (b :: t)). auto.
Qed.

(** For a non-empty term of word characters, [\b<t>\b] matches where [t]
    starts with no word character right before or right after it. *)
Lemma word_at_spec (t : jsstring) (prev : option N) (s : jsstring) :
  t <> [] -> Forall (fun c => is_word c = true) t ->
  word_at t prev s
  = negb (opt_class is_word prev) && startsWith t s
    && negb (opt_class is_word (nth_error s (length t))).
Proof.
  intros Hne Hw. unfold word_at.
  destruct (startsWith t s) eqn:E; [|now rewrite !andb_false_r].
  rewrite !andb_true_r. destruct t as [|a t]; [congruence|].
  unfold boundary. rewrite (last_cons_word a t Hw).
  destruct s as [|b s]; [discriminate|]. simpl in E.
  apply andb_true_iff in E as [E _]. apply N.eqb_eq in E. subst b.
  inversion Hw; subst.
  change (is_word_opt (head (a :: s))) with (is_word a).
  change (opt_class is_word) with is_word_opt.
  replace (is_word a) with true by (symmetry; assumption).
  destruct (is_word_opt prev), (is_word_opt (nth_error (a :: s) (length (a :: t))));
    reflexivity.
Qed.

Lemma last_or_cons (prev : option N) (c : N) (u : jsstring) :
  last_or prev (c :: u) = last_or (Some c) u.
Proof.
  unfold last_or. destruct u as [|d u]; [reflexivity|].
  change (last (c :: d :: u)) with (last (d :: u)).
  destruct (last (d :: u)) eqn:E; [reflexivity|].
  exfalso. revert d E. induction u as [|e u IH]; intros d E; [discriminate|].
  apply (IH e). exact E.
Qed.

(** Passing the rest of a match skips its characters. *)
Lemma count_matches_skip (t u rest : jsstring) (prev : option N) :
  count_matches t prev (length u) (u ++ rest)
  = count_matches t (last_or prev u) 0 rest.
Proof.
  revert prev. induction u as [|c u IH]; intros prev.
  - reflexivity.
  - simpl. rewrite IH. now rewrite last_or_cons.
Qed.

(** No occurrence starts right after a word character: none starts inside
    a run of word characters that follows one. *)
Lemma occurrences_skip (t u rest : jsstring) (prev : option N) :
  opt_class is_word prev = true ->
  Forall (fun c => is_word c = true) u ->
  occurrences is_word t prev (u ++ rest)
  = occurrences is_word t (last_or prev u) rest.
Proof.
  intros Hp Hu. revert prev Hp.
  induction Hu as [|c u Hc _ IH]; intros prev Hp.
  - reflexivity.
  - cbn [app occurrences]. rewrite Hp. simpl negb. cbn [andb].
    rewrite IH by exact Hc. now rewrite last_or_cons.
Qed.

(** The scan of the global match counts every whole-word occurrence: two
    occurrences cannot overlap. *)
Lemma count_matches_occurrences (t : jsstring) :
  t <> [] -> Forall (fun c => is_word c = true) t ->
  forall (s : jsstring) (prev : option N),
    count_matches t prev 0 s = occurrences is_word t prev s.
Proof.
  intros Hne Hw s.
  induction s as [s IH] using (induction_ltof1 _ (@length N)).
  unfold ltof in IH. intros prev. destruct s as [|c s']; [reflexivity|].
  cbn [count_matches occurrences].
  rewrite (word_at_spec t prev (c :: s') Hne Hw).
  destruct (negb (opt_class is_word prev) && startsWith t (c :: s')
            && negb (opt_class is_word (nth_error (c :: s') (length t)))) eqn:E.
  - apply andb_true_iff in E as [E _]. apply andb_true_iff in E as [_ E].
    apply startsWith_spec in E as [r Hr].
    destruct t as [|a t']; [congruence|]. injection Hr as -> ->.
    inversion Hw; subst.
    cbn [length]. rewrite Nat.sub_succ, Nat.sub_0_r.
    rewrite count_matches_skip, occurrences_skip by assumption.
    rewrite IH; [reflexivity|]. simpl. rewrite length_app. lia.
  - rewrite IH; [reflexivity | simpl; lia].
Qed.

Lemma term_hits_sum (terms : list jsstring) (lower : jsstring) :
  Forall (fun t => t <> [] /\ Forall (fun c => is_word c = true) t) terms ->
  term_hits terms lower = whole_word_sum is_word terms lower.
Proof.
  unfold whole_word_sum. induction 1 as [|t r [Hne Hw] _ IH]; [reflexivity|].
  cbn [term_hits List.filter]. rewrite IH.
  destruct (length t <? 3) eqn:E.
  - apply Nat.ltb_lt in E. replace (3 <=? length t) with false; [reflexivity|].
    symmetry. apply Nat.leb_gt. exact E.
  - apply Nat.ltb_ge in E. replace (3 <=? length t) with true.
    + cbn [map list_sum]. unfold word_hits.
      now rewrite count_matches_occurrences.
    + symmetry. apply Nat.leb_le. exact E.
Qed.

Lemma bonus_quarters_count (lower : jsstring) (l : list jsstring) :
  bonus_quarters l lower = length (List.filter (fun b => includes b lower) l).
Proof.
  induction l as [|b r IH]; [reflexivity|]. cbn [bonus_quarters List.filter].
  rewrite IH. now destruct (includes b lower).
Qed.

(** The score the loop computes is the stated one, the neighbours of a
    whole word being the word characters. *)
Lemma score_entry_stated (question : option jsstring) (e : jsstring * jsstring) :
  score (score_entry (query_terms question) e)
  = stated_score is_word (query_terms question) (snd e).
Proof.
  unfold score_entry, stated_score, bonus_count. cbn [score].
  rewrite (bonus_quarters_count _ bonus_terms). f_equal. f_equal.
  apply term_hits_sum. apply List.Forall_forall. intros t Ht.
  apply (proj2 (query_terms_dedup question)) in Ht. apply query_tokens_lower in Ht as (_ & Hne & Ha).
  split; [exact Hne|]. eapply Forall_impl; [exact Ha|]. apply alnum_is_word.
Qed.

Lemma insert_scored_perm (x : Scored) (l : list Scored) :
  Permutation (insert_scored x l) (x :: l).
Proof.
  induction l as [|y r IH]; simpl; [reflexivity|].
  destruct (score x <? score y); [|reflexivity].
  rewrite IH. apply perm_swap.
Qed.

Lemma sort_scored_perm (l : list Scored) : Permutation (sort_scored l) l.
Proof.
  induction l as [|x r IH]; simpl; [reflexivity|].
  rewrite insert_scored_perm. now apply perm_skip.
Qed.

Lemma insert_scored_sorted (x : Scored) (l : list Scored) :
  StronglySorted by_score_desc l -> StronglySorted by_score_desc (insert_scored x l).
Proof.
  induction 1 as [|y r Hr IH Hy]; simpl.
  - repeat constructor.
  - destruct (score x <? score y) eqn:E.
    + apply Nat.ltb_lt in E. constructor; [exact IH|].
      apply List.Forall_forall. intros z Hz.
      apply (Permutation_in _ (insert_scored_perm x r)) in Hz.
      destruct Hz as [<- | Hz].
      * unfold by_score_desc. lia.
      * exact (proj1 (List.Forall_forall _ _) Hy z Hz).
    + apply Nat.ltb_ge in E. constructor; [now constructor|].
      constructor; [exact E|].
      eapply Forall_impl; [exact Hy|]. unfold by_score_desc. intros z Hz. lia.
Qed.

Lemma sort_scored_sorted (l : list Scored) : StronglySorted by_score_desc (sort_scored l).
Proof.
  induction l as [|x r IH]; simpl; [constructor | now apply insert_scored_sorted].
Qed.

Lemma insert_scored_stable (n : nat) (x : Scored) (l : list Scored) :
  of_score n (insert_scored x l) = of_score n (x :: l).
Proof.
  unfold of_score. induction l as [|y r IH]; [reflexivity|].
  cbn [insert_scored]. destruct (score x <? score y) eqn:E; [|reflexivity].
  apply Nat.ltb_lt in E. cbn [List.filter] in *. rewrite IH.
  destruct (score x =? n) eqn:Ex, (score y =? n) eqn:Ey; try reflexivity.
  apply Nat.eqb_eq in Ex, Ey. lia.
Qed.

(** Documents of equal score keep the order they had. *)
Lemma sort_scored_stable (n : nat) (l : list Scored) :
  of_score n (sort_scored l) = of_score n l.
Proof.
  induction l as [|x r IH]; [reflexivity|].
  cbn [sort_scored]. rewrite insert_scored_stable.
  unfold of_score in *. cbn [List.filter]. now rewrite IH.
Qed.

Lemma of_score_head (x : Scored) (l : list Scored) :
  of_score (score x) (x :: l) = x :: of_score (score x) l.
Proof. unfold of_score. cbn [List.filter]. now rewrite Nat.eqb_refl. Qed.

Lemma of_score_In (n : nat) (l : list Scored) (d : Scored) :
  In d (of_score n l) <-> In d l /\ score d = n.
Proof. unfold of_score. rewrite filter_In, Nat.eqb_eq. tauto. Qed.

(** A list sorted by descending score is determined by its documents of
    each score: every stable sort returns the list [sort_scored] returns. *)
Lemma stable_sort_unique (l1 l2 : list Scored) :
  StronglySorted by_score_desc l1 -> StronglySorted by_score_desc l2 ->
  (forall n, of_score n l1 = of_score n l2) ->
  l1 = l2.
Proof.
  intros S1. revert l2. induction S1 as [|x r1 S1 IH Hx]; intros l2 S2 Heq.
  - destruct l2 as [|y r2]; [reflexivity|].
    specialize (Heq (score y)). rewrite of_score_head in Heq. discriminate.
  - destruct S2 as [|y r2 S2 Hy].
    + specialize (Heq (score x)). rewrite of_score_head in Heq. discriminate.
    + assert (Hxy : score y <= score x).
      { assert (H : In y (of_score (score y) (x :: r1))).
        { rewrite Heq, of_score_head. now left. }
        apply of_score_In in H as [[<- | H] _]; [lia|].
        exact (proj1 (List.Forall_forall _ _) Hx y H). }
      assert (Hyx : score x <= score y).
      { assert (H : In x (of_score (score x) (y :: r2))).
        { rewrite <- Heq, of_score_head. now left. }
        apply of_score_In in H as [[<- | H] _]; [lia|].
        exact (proj1 (List.Forall_forall _ _) Hy x H). }
      assert (E : score x = score y) by lia.
      pose proof (Heq (score x)) as H0. rewrite of_score_head in H0.
      rewrite E, of_score_head in H0. injection H0 as -> H0.
      f_equal. apply IH; [exact S2|]. intros n. specialize (Heq n).
      unfold of_score in *. cbn [List.filter] in Heq.
      destruct (score y =? n); [now injection Heq | exact Heq].
Qed.

(** C3, as the code has it: the neighbours that bar a whole-word match are
    the word characters of the regular expression, letters, digits and the
    underscore.  For every corpus and query the terms are the lower-cased
    tokens of the query, each once; the score of a document is the sum,
    over the terms of length 3 and more, of the whole-word occurrences of
    the term in the lower-cased text, plus 0.25 for each of the seven bonus
    terms that is a substring of the lower-cased text (in quarter units:
    four times the sum, plus the number of bonus terms); the sorted list is
    a permutation of the scored one, descending by score, with the
    documents of each score in their original order. *)
Theorem score_counts_whole_words_and_bonus
    (all : list (jsstring * jsstring)) (question : option jsstring) :
  let terms := query_terms question in
  let scored := score_all all question in
  let sorted := sort_scored scored in
  (List.NoDup terms /\ forall t, In t terms <-> In t (query_tokens question)) /\
  scored = map (fun e => {| file := fst e; text := snd e;
                            score := stated_score is_word terms (snd e) |}) all /\
  (forall b s : jsstring,
     includes b s = true <-> exists pre post, s = pre ++ b ++ post) /\
  bonus_terms = [str "use"; str "permitted"; str "special"; str "parking";
                 str "definition"; str "district"; str "table"] /\
  Permutation sorted scored /\
  StronglySorted by_score_desc sorted /\
  forall n : nat, of_score n sorted = of_score n scored.
Proof.
  cbv zeta. split; [apply query_terms_dedup|].
  split.
  { unfold score_all. apply map_ext. intros e.
    rewrite <- score_entry_stated. reflexivity. }
  split; [apply includes_spec|].
  split; [reflexivity|].
  split; [apply sort_scored_perm|].
  split; [apply sort_scored_sorted|].
  intros n. apply sort_scored_stable.
Qed.

(** C3 as stated fails: an underscore is no alphanumeric character, yet it
    bars the whole-word match; the document scores 0.25, where the stated
    rule counts one occurrence and gives 1.25. *)
Lemma underscore_bars_whole_word :
  map score (score_all [(str "a.txt", str "parking_lot")] (Some (str "parking")))
    = [1] /\
  stated_score is_alnum (query_terms (Some (str "parking"))) (str "parking_lot") = 5.
Proof. vm_compute. split; reflexivity. Qed.

(** ** Citation markers *)

Lemma span_close_shape (s f rest : jsstring) :
  span_close s = Some (f, rest) ->
  s = f ++ close_bracket :: rest /\ no_close f = true.
Proof.
  revert f rest. induction s as [|c s IH]; intros f rest; simpl; [discriminate|].
  destruct (is_close c) eqn:E.
  - intros [= <- <-]. apply N.eqb_eq in E. subst c. split; reflexivity.
  - destruct (span_close s) as [[f' rest']|]; [|discriminate].
    intros [= <- <-]. destruct (IH f' rest' eq_refl) as [-> Hf].
    split; [reflexivity|]. simpl. now rewrite E.
Qed.

Lemma span_close_app (f rest : jsstring) :
  no_close f = true -> span_close (f ++ close_bracket :: rest) = Some (f, rest).
Proof.
  induction f as [|c f IH]; simpl; [reflexivity|].
  intros H. apply andb_true_iff in H as [Hc Hf].
  apply negb_true_iff in Hc. now rewrite Hc, IH.
Qed.

Lemma span_close_None (s : jsstring) :
  span_close s = None <-> no_close s = true.
Proof.
  induction s as [|c s IH]; simpl; [tauto|].
  destruct (is_close c); simpl.
  - split; discriminate.
  - destruct (span_close s) as [[f rest]|]; rewrite <- IH; split;
      congruence.
Qed.

Lemma marker_at_shape (s f rest : jsstring) :
  marker_at s = Some (f, rest) ->
  s = open_bracket :: f ++ close_bracket :: rest /\ no_close f = true
  /\ file_name_ok f = true.
Proof.
  destruct s as [|c s]; simpl; [discriminate|].
  destruct (is_open c) eqn:E; [|discriminate].
  apply N.eqb_eq in E. subst c.
  destruct (span_close s) as [[f' rest']|] eqn:S; [|discriminate].
  destruct (file_name_ok f') eqn:K; [|discriminate].
  intros [= <- <-]. apply span_close_shape in S as [-> Hf]. auto.
Qed.

Lemma marker_at_head (f rest : jsstring) :
  no_close f = true -> file_name_ok f = true ->
  marker_at (open_bracket :: f ++ close_bracket :: rest) = Some (f, rest).
Proof.
  intros Hf Hk. cbn [marker_at].
  change (is_open open_bracket) with true. cbv iota.
  now rewrite span_close_app, Hk.
Qed.

Lemma marker_at_not_open (c : N) (s : jsstring) :
  is_open c = false -> marker_at (c :: s) = None.
Proof. intros H. simpl. now rewrite H. Qed.

Lemma replace_markers_skip (r : jsstring -> jsstring) (u rest : jsstring) :
  replace_markers r (length u) (u ++ rest) = replace_markers r 0 rest.
Proof. induction u as [|c u IH]; [reflexivity | exact IH]. Qed.

(** The scan written on the input that remains after a match. *)
Lemma replace_markers_unfold (r : jsstring -> jsstring) (s : jsstring) :
  replace_markers r 0 s =
  match marker_at s with
  | Some (f, rest) => r f ++ replace_markers r 0 rest
  | None =>
      match s with
      | [] => []
      | c :: s' => c :: replace_markers r 0 s'
      end
  end.
Proof.
  destruct s as [|c s']; [reflexivity|]. cbn [replace_markers].
  destruct (marker_at (c :: s')) as [[f rest]|] eqn:M; [|reflexivity].
  apply marker_at_shape in M as (E & _ & _). injection E as -> ->.
  f_equal.
  change (f ++ close_bracket :: rest) with (f ++ [close_bracket] ++ rest).
  rewrite app_assoc.
  replace (S (length f)) with (length (f ++ [close_bracket]))
    by (rewrite length_app; simpl; lia).
  apply replace_markers_skip.
Qed.

Lemma marker_names_skip (u rest : jsstring) :
  marker_names (length u) (u ++ rest) = marker_names 0 rest.
Proof. induction u as [|c u IH]; [reflexivity | exact IH]. Qed.

Lemma marker_names_unfold (s : jsstring) :
  marker_names 0 s =
  match marker_at s with
  | Some (f, rest) => f :: marker_names 0 rest
  | None =>
      match s with
      | [] => []
      | _ :: s' => marker_names 0 s'
      end
  end.
Proof.
  destruct s as [|c s']; [reflexivity|]. cbn [marker_names].
  destruct (marker_at (c :: s')) as [[f rest]|] eqn:M; [|reflexivity].
  apply marker_at_shape in M as (E & _ & _). injection E as -> ->.
  f_equal.
  change (f ++ close_bracket :: rest) with (f ++ [close_bracket] ++ rest).
  rewrite app_assoc.
  replace (S (length f)) with (length (f ++ [close_bracket]))
    by (rewrite length_app; simpl; lia).
  apply marker_names_skip.
Qed.

Lemma replace_markers_ext (r r' : jsstring -> jsstring) :
  (forall f, r f = r' f) ->
  forall (s : jsstring) (skip : nat),
    replace_markers r skip s = replace_markers r' skip s.
Proof.
  intros H. induction s as [|c s IH]; intros skip; [reflexivity|].
  cbn [replace_markers]. destruct skip; [|apply IH].
  destruct (marker_at (c :: s)) as [[f rest]|]; now rewrite ?H, IH.
Qed.

(** A text without marker is returned as it is. *)
Lemma replace_markers_no_marker (r : jsstring -> jsstring) (s : jsstring) :
  has_marker s = false -> replace_markers r 0 s = s.
Proof.
  induction s as [|c s IH]; [reflexivity|]. cbn [has_marker replace_markers].
  destruct (marker_at (c :: s)); [discriminate|]. intros H. now rewrite IH.
Qed.

Lemma no_close_no_marker (s : jsstring) : no_close s = true -> has_marker s = false.
Proof.
  induction s as [|c s IH]; [reflexivity|]. intros H. cbn [has_marker].
  destruct (marker_at (c :: s)) as [[f rest]|] eqn:M.
  - apply marker_at_shape in M as (E & _ & _).
    assert (Hin : In close_bracket (c :: s)) by (rewrite E; right; apply in_elt).
    unfold no_close in H.
    apply (proj1 (forallb_forall _ _) H) in Hin. discriminate.
  - apply IH. simpl in H. now apply andb_true_iff in H as [_ H].
Qed.

Lemma no_open_app_marker (u v : jsstring) :
  no_open u = true -> has_marker (u ++ v) = has_marker v.
Proof.
  induction u as [|c u IH]; [reflexivity|]. simpl no_open.
  intros H. apply andb_true_iff in H as [Hc Hu]. apply negb_true_iff in Hc.
  cbn [app has_marker]. rewrite (marker_at_not_open c _ Hc). auto.
Qed.

Lemma file_name_ok_cons (c : N) (f : jsstring) :
  file_name_ok f = true -> file_name_ok (c :: f) = true.
Proof.
  unfold file_name_ok. rewrite !andb_true_iff, !endsWith_spec, !Nat.leb_le.
  intros [[x ->] H]. split; [now exists (c :: x) | cbn [length]; lia].
Qed.

(** Up to the closing bracket of a bracket that opens no marker, the scan
    copies the text: no marker starts before that closing bracket. *)
Lemma replace_markers_until_close (r : jsstring -> jsstring) (f rest : jsstring) :
  no_close f = true -> file_name_ok f = false ->
  replace_markers r 0 (f ++ close_bracket :: rest)
  = f ++ close_bracket :: replace_markers r 0 rest.
Proof.
  induction f as [|c f IH]; intros Hc Hk.
  - reflexivity.
  - simpl in Hc. apply andb_true_iff in Hc as [_ Hc].
    assert (Hk' : file_name_ok f = false).
    { destruct (file_name_ok f) eqn:K; [|reflexivity].
      now rewrite (file_name_ok_cons c f K) in Hk. }
    cbn [app replace_markers].
    replace (marker_at (c :: f ++ close_bracket :: rest)) with (@None (jsstring * jsstring)).
    + now rewrite IH.
    + symmetry. simpl. destruct (is_open c); [|reflexivity].
      now rewrite span_close_app, Hk'.
Qed.

(** When no replacement brings an opening bracket, the rewritten text holds
    no marker. *)
Lemma replace_markers_marker_free (r : jsstring -> jsstring) (s : jsstring) :
  Forall (fun f => no_open (r f) = true) (marker_names 0 s) ->
  has_marker (replace_markers r 0 s) = false.
Proof.
  induction s as [s IH] using (induction_ltof1 _ (@length N)).
  unfold ltof in IH. intros Hn.
  rewrite replace_markers_unfold. rewrite marker_names_unfold in Hn.
  destruct (marker_at s) as [[f rest]|] eqn:M.
  - apply marker_at_shape in M as (-> & _ & _).
    inversion Hn as [|? ? Hf Hrest]; subst.
    rewrite no_open_app_marker by exact Hf.
    apply IH; [|exact Hrest]. simpl. rewrite length_app. simpl. lia.
  - destruct s as [|c s']; [reflexivity|].
    assert (Hs' : has_marker (replace_markers r 0 s') = false)
      by (apply IH; [simpl; lia | exact Hn]).
    cbn [has_marker]. rewrite Hs'.
    replace (marker_at (c :: replace_markers r 0 s')) with (@None (jsstring * jsstring));
      [reflexivity|].
    symmetry. simpl in M |- *. destruct (is_open c); [|reflexivity].
    destruct (span_close s') as [[f rest]|] eqn:S.
    + destruct (file_name_ok f) eqn:K; [discriminate|].
      apply span_close_shape in S as [-> Hf].
      now rewrite replace_markers_until_close, span_close_app, K.
    + apply span_close_None in S.
      rewrite (replace_markers_no_marker r s' (no_close_no_marker s' S)).
      apply span_close_None in S. now rewrite S.
Qed.

Lemma no_open_In (s : jsstring) :
  no_open s = true <-> ~ In open_bracket s.
Proof.
  unfold no_open. rewrite forallb_forall. split.
  - intros H Hin. apply H in Hin. discriminate.
  - intros H c Hc. destruct (is_open c) eqn:E; [|reflexivity].
    apply N.eqb_eq in E. now subst c.
Qed.

Lemma no_open_app (u v : jsstring) :
  no_open (u ++ v) = no_open u && no_open v.
Proof. apply forallb_app. Qed.

Lemma no_open_trim (s : jsstring) : no_open s = true -> no_open (trim s) = true.
Proof. rewrite !no_open_In. intros H Hin. apply H. now apply trim_incl. Qed.

Lemma no_open_strip_txt (f : jsstring) :
  no_open f = true -> no_open (strip_txt f) = true.
Proof.
  unfold strip_txt. destruct (endsWith _ _); [|trivial].
  rewrite !no_open_In. intros H Hin. apply H.
  rewrite <- (firstn_skipn (length f - 4) f). apply in_or_app. now left.
Qed.

(** The labels of an index whose articles and titles hold no opening
    bracket hold none, whenever the file name holds none. *)
Lemma no_open_label (index : gmap jsstring Meta) (f : jsstring) :
  map_Forall (fun _ m => no_open (or_empty (article m)) = true
                         /\ no_open (or_empty (title m)) = true) index ->
  no_open f = true -> no_open (label index f) = true.
Proof.
  intros Hidx Hf. unfold label.
  destruct (lookup_meta index f) as [m|] eqn:L; [|now apply no_open_strip_txt].
  assert (Hm : no_open (or_empty (article m)) = true
               /\ no_open (or_empty (title m)) = true).
  { unfold lookup_meta in L. destruct (index !! f) as [m'|] eqn:L'.
    - injection L as <-. exact (Hidx f m' L').
    - exact (Hidx (trim f) m L). }
  destruct Hm as [Ha Ht]. apply no_open_trim.
  rewrite !no_open_app, Ht, !andb_true_r.
  destruct (truthy (or_empty (article m))); [|reflexivity].
  now rewrite no_open_app, Ha.
Qed.

Lemma label_empty (f : jsstring) : label ∅ f = strip_txt f.
Proof. unfold label, lookup_meta. now rewrite !lookup_empty. Qed.

(** The two revisions of [prettyCitations] rewrite alike: on an empty index
    the label is the stripped file name. *)
Lemma rewrite_with_agree (index : gmap jsstring Meta) (text : jsstring) :
  AdminOverride.rewrite_with index text = RobustErrors.rewrite_with index text.
Proof.
  unfold AdminOverride.rewrite_with, RobustErrors.rewrite_with.
  destruct (size index =? 0) eqn:E; [|reflexivity].
  apply Nat.eqb_eq, map_size_empty_iff in E. subst index.
  apply replace_markers_ext. intros f. symmetry. apply label_empty.
Qed.

(** C6, as the code has it: for every index and text, a text without
    citation marker is returned unchanged; and when neither the articles and
    titles of the index nor the file names of the markers of the text hold
    an opening bracket, the rewritten text holds no marker and rewriting it
    again changes nothing. *)
Theorem rewrite_is_idempotent_on_plain_markers
    (index : gmap jsstring Meta) (text : jsstring) :
  (has_marker text = false ->
   AdminOverride.rewrite_with index text = text /\
   RobustErrors.rewrite_with index text = text) /\
  (map_Forall (fun _ m => no_open (or_empty (article m)) = true
                          /\ no_open (or_empty (title m)) = true) index ->
   Forall (fun f => no_open f = true) (marker_names 0 text) ->
   has_marker (AdminOverride.rewrite_with index text) = false /\
   has_marker (RobustErrors.rewrite_with index text) = false /\
   AdminOverride.rewrite_with index (AdminOverride.rewrite_with index text)
     = AdminOverride.rewrite_with index text /\
   RobustErrors.rewrite_with index (RobustErrors.rewrite_with index text)
     = RobustErrors.rewrite_with index text).
Proof.
  split.
  - intros H. rewrite rewrite_with_agree. unfold RobustErrors.rewrite_with.
    now rewrite replace_markers_no_marker.
  - intros Hidx Hnames. rewrite !rewrite_with_agree.
    assert (F : has_marker (RobustErrors.rewrite_with index text) = false).
    { apply replace_markers_marker_free.
      eapply Forall_impl; [exact Hnames|]. intros f Hf.
      now apply no_open_label. }
    repeat split; try exact F;
      unfold RobustErrors.rewrite_with at 1; now apply replace_markers_no_marker.
Qed.

Lemma rewrite_is_idempotent_witness :
  has_marker (AdminOverride.rewrite_with parking_index
                (str "See [a.txt] and [b.txt].")) = false /\
  has_marker (RobustErrors.rewrite_with parking_index
                (str "See [a.txt] and [b.txt].")) = false /\
  AdminOverride.rewrite_with parking_index
    (AdminOverride.rewrite_with parking_index (str "See [a.txt] and [b.txt]."))
  = AdminOverride.rewrite_with parking_index (str "See [a.txt] and [b.txt].") /\
  RobustErrors.rewrite_with parking_index
    (RobustErrors.rewrite_with parking_index (str "See [a.txt] and [b.txt]."))
  = RobustErrors.rewrite_with parking_index (str "See [a.txt] and [b.txt].").
Proof.
  apply (proj2 (rewrite_is_idempotent_on_plain_markers parking_index
                  (str "See [a.txt] and [b.txt]."))).
  - apply map_Forall_singleton. vm_compute. split; reflexivity.
  - vm_compute. repeat constructor.
Defined.

(** C6 as stated fails: a bracket nested in a marker is left in front of
    the remaining suffix, and a title may hold a marker of its own; the
    rewritten text then holds a marker, and a second rewriting changes it. *)
Lemma nested_bracket_is_matched_again :
  AdminOverride.rewrite_with ∅ (str "[[a.txt].txt]") = str "[a.txt]" /\
  has_marker (AdminOverride.rewrite_with ∅ (str "[[a.txt].txt]")) = true /\
  AdminOverride.rewrite_with ∅ (AdminOverride.rewrite_with ∅ (str "[[a.txt].txt]"))
    = str "a" /\
  RobustErrors.rewrite_with ∅ (str "[[a.txt].txt]") = str "[a.txt]" /\
  RobustErrors.rewrite_with ∅ (RobustErrors.rewrite_with ∅ (str "[[a.txt].txt]"))
    = str "a" /\
  AdminOverride.rewrite_with
    {[ str "a.txt" := {| article := Some (str "4"); title := Some (str "[b.txt]") |} ]}
    (str "[a.txt]") = str "Article 4 — [b.txt]".
Proof. vm_compute. repeat split. Qed.

(** Before a bracket-free prefix nothing changes. *)
Lemma replace_markers_no_open (r : jsstring -> jsstring) (u s : jsstring) :
  no_open u = true ->
  replace_markers r 0 (u ++ s) = u ++ replace_markers r 0 s.
Proof.
  induction u as [|c u IH]; [reflexivity|]. simpl no_open.
  intros H. apply andb_true_iff in H as [Hc Hu]. apply negb_true_iff in Hc.
  cbn [app replace_markers]. rewrite (marker_at_not_open c _ Hc).
  now rewrite IH.
Qed.

Lemma span_close_app_r (u v f rest : jsstring) :
  span_close u = Some (f, rest) -> span_close (u ++ v) = Some (f, rest ++ v).
Proof.
  intros H. apply span_close_shape in H as [-> Hf].
  rewrite <- app_assoc. cbn [app]. now apply span_close_app.
Qed.

Lemma marker_at_app_r (u v f rest : jsstring) :
  marker_at u = Some (f, rest) -> marker_at (u ++ v) = Some (f, rest ++ v).
Proof.
  intros H. apply marker_at_shape in H as (-> & Hf & Hk).
  cbn [app]. rewrite <- app_assoc. cbn [app]. now apply marker_at_head.
Qed.

(** A text that ends with a closing bracket decides its own matches. *)
Lemma marker_at_closed_None (p v : jsstring) :
  marker_at (p ++ [close_bracket]) = None -> marker_at (p ++ close_bracket :: v) = None.
Proof.
  destruct p as [|c p]; [reflexivity|]. cbn [app marker_at].
  destruct (is_open c); [|reflexivity].
  destruct (span_close (p ++ [close_bracket])) as [[f rest]|] eqn:S.
  - change (p ++ close_bracket :: v) with (p ++ [close_bracket] ++ v).
    rewrite app_assoc, (span_close_app_r _ v _ _ S).
    destruct (file_name_ok f); [discriminate | reflexivity].
  - apply span_close_None in S. unfold no_close in S.
    rewrite forallb_app in S. apply andb_true_iff in S as [_ S]. discriminate.
Qed.

(** What is left of a text ending with a closing bracket after a match is
    empty or ends with a closing bracket, and is shorter. *)
Lemma rest_of_closed (p f rest : jsstring) :
  p ++ [close_bracket] = open_bracket :: f ++ close_bracket :: rest ->
  rest = [] \/ exists p', rest = p' ++ [close_bracket] /\ length p' < length p.
Proof.
  intros E. destruct rest as [|x rest']; [now left|]. right.
  destruct (@exists_last _ (x :: rest') ltac:(discriminate)) as (p' & y & Ey).
  rewrite Ey in E.
  assert (E' : p ++ [close_bracket] = (open_bracket :: f ++ close_bracket :: p') ++ [y]).
  { rewrite E. cbn [app]. rewrite <- app_assoc. reflexivity. }
  apply app_inj_tail in E' as [Hp <-].
  exists p'. split; [exact Ey|]. rewrite Hp. cbn [length].
  rewrite length_app. cbn [length]. lia.
Qed.

(** The scan of a text that ends with a closing bracket does not depend on
    what follows, and leaves what follows to a scan of its own. *)
Lemma replace_markers_closed (r : jsstring -> jsstring) (p v : jsstring) :
  replace_markers r 0 (p ++ close_bracket :: v)
  = replace_markers r 0 (p ++ [close_bracket]) ++ replace_markers r 0 v.
Proof.
  induction p as [p IH] using (induction_ltof1 _ (@length N)).
  unfold ltof in IH.
  rewrite (replace_markers_unfold r (p ++ close_bracket :: v)).
  rewrite (replace_markers_unfold r (p ++ [close_bracket])).
  destruct (marker_at (p ++ [close_bracket])) as [[f rest]|] eqn:M.
  - change (p ++ close_bracket :: v) with (p ++ [close_bracket] ++ v).
    rewrite app_assoc, (marker_at_app_r _ v _ _ M), <- app_assoc. f_equal.
    apply marker_at_shape in M as (E & _ & _).
    apply rest_of_closed in E as [-> | (p' & -> & Hlt)]; [reflexivity|].
    rewrite <- app_assoc. apply IH. exact Hlt.
  - rewrite (marker_at_closed_None p v M).
    destruct p as [|c p']; [reflexivity|]. cbn [app]. f_equal.
    apply IH. simpl. lia.
Qed.

(** A text that leaves no bracket pending holds no opening bracket, or none
    after its last closing bracket. *)
Lemma pending_decompose (pre : jsstring) (b : bool) :
  pending b pre = false ->
  (b = false /\ no_open pre = true)
  \/ exists p q, pre = p ++ close_bracket :: q /\ no_open q = true.
Proof.
  revert b. induction pre as [|c r IH]; intros b H; [now left|].
  cbn [pending] in H. apply IH in H as [[Hb Hr] | (p & q & -> & Hq)].
  - destruct (is_open c) eqn:Eo; [discriminate|].
    destruct (is_close c) eqn:Ec.
    + right. apply N.eqb_eq in Ec. subst c. now exists [], r.
    + left. split; [exact Hb|]. simpl. now rewrite Eo.
  - right. now exists (c :: p), q.
Qed.

(** After a prefix that leaves no bracket pending the scan starts afresh. *)
Lemma replace_markers_app (r : jsstring -> jsstring) (pre s : jsstring) :
  pending false pre = false ->
  replace_markers r 0 (pre ++ s)
  = replace_markers r 0 pre ++ replace_markers r 0 s.
Proof.
  intros H. apply pending_decompose in H as [[_ Hn] | (p & q & -> & Hq)].
  - rewrite replace_markers_no_open by exact Hn.
    rewrite <- (app_nil_r pre) at 2.
    rewrite replace_markers_no_open by exact Hn. cbn [replace_markers].
    now rewrite app_nil_r.
  - rewrite <- app_assoc. cbn [app].
    rewrite (replace_markers_closed r p (q ++ s)).
    rewrite (replace_markers_closed r p q).
    rewrite (replace_markers_no_open r q s Hq).
    pose proof (replace_markers_no_open r q [] Hq) as E.
    rewrite app_nil_r in E. cbn [replace_markers] in E.
    now rewrite E, app_nil_r, <- app_assoc.
Qed.

Lemma toLowerCase_app (u v : jsstring) :
  toLowerCase (u ++ v) = toLowerCase u ++ toLowerCase v.
Proof. apply map_app. Qed.

Lemma strip_txt_stem (stem : jsstring) : strip_txt (stem ++ str ".txt") = stem.
Proof.
  unfold strip_txt. rewrite toLowerCase_app.
  replace (endsWith (str ".txt") (toLowerCase stem ++ toLowerCase (str ".txt")))
    with true.
  - rewrite length_app. change (length (str ".txt")) with 4.
    replace (length stem + 4 - 4) with (length stem + 0) by lia.
    rewrite firstn_app_2. cbn [firstn]. apply app_nil_r.
  - symmetry. apply endsWith_spec. now exists (toLowerCase stem).
Qed.




(** A text that neither starts nor ends with white space is its own trim. *)
Lemma trim_fixed (c z : N) (s : jsstring) :
  is_space c = false -> is_space z = false ->
  trim (c :: s ++ [z]) = c :: s ++ [z].
Proof.
  intros Hc Hz. unfold trim, trimEnd. cbn [trimStart]. rewrite Hc.
  replace (rev (c :: s ++ [z])) with (z :: rev (c :: s)).
  - cbn [trimStart]. rewrite Hz.
    change (rev (z :: rev (c :: s))) with (rev (rev (c :: s)) ++ [z]).
    now rewrite rev_involutive.
  - change (c :: s ++ [z]) with ((c :: s) ++ [z]). now rewrite rev_app_distr.
Qed.

(** With a non-empty article and a title that does not end with white
    space, as [loadIndex] stores them, the label is 'Article <article> —
    <title>' itself. *)
Lemma label_of_trimmed_title (index : gmap jsstring Meta) (f a t : jsstring)
    (m : Meta) (z : N) :
  lookup_meta index f = Some m ->
  article m = Some a -> a <> [] ->
  title m = Some (t ++ [z]) -> is_space z = false ->
  label index f = str "Article " ++ a ++ str " — " ++ t ++ [z].
Proof.
  intros L Ha Hne Ht Hz. unfold label. rewrite L, Ha, Ht. cbn [or_empty].
  destruct a as [|c a]; [congruence|]. cbn [truthy].
  assert (E : (str "Article " ++ c :: a) ++ str " " ++ em_dash ++ str " " ++ t ++ [z]
              = 65%N :: (str "rticle " ++ (c :: a) ++ str " — " ++ t) ++ [z]).
  { rewrite <- !app_assoc. reflexivity. }
  rewrite E, trim_fixed by (reflexivity || exact Hz).
  rewrite <- !app_assoc. reflexivity.
Qed.




(** ** Loading the corpus and the index *)

Lemma fold_add_row_sound (rows : list (list jsstring)) (out : gmap jsstring Meta)
    (f : jsstring) (m : Meta) :
  fold_left AdminOverride.add_row rows out !! f = Some m ->
  out !! f = Some m \/
  exists a t rest,
    In (f :: a :: t :: rest) rows /\ is_txt f = true
    /\ m = {| article := Some a; title := Some t |}.
Proof.
  revert out. induction rows as [|cols r IH]; intros out; [now left|].
  cbn [fold_left]. intros H. apply IH in H as [H | (a & t & rest & Hin & Hr)].
  - destruct cols as [|file [|a [|t rest]]]; try (now left).
    cbn [AdminOverride.add_row] in H.
    destruct (is_txt file) eqn:E; [|now left].
    apply lookup_insert_Some in H as [[<- <-] | [_ H]]; [|now left].
    right. exists a, t, rest. repeat split; [now left | exact E].
  - right. exists a, t, rest. split; [now right | exact Hr].
Qed.

(** The "Admin Override" revision loads as C9 states: a content directory
    that is missing or cannot be listed gives the empty corpus, only files
    of suffix .txt are kept, a missing index.csv gives the empty index, and
    every entry of the index comes from a row of three fields or more whose
    first field has the suffix. *)
Lemma AdminOverride_loaders_degrade (fs : FileSystem) (city : jsstring) :
  (fs_dir fs city = NoDirectory \/ fs_dir fs city = Unreadable ->
   AdminOverride.loadAll fs city = []) /\
  (forall f t : jsstring, In (f, t) (AdminOverride.loadAll fs city) -> is_txt f = true) /\
  (fs_file fs city (str "index.csv") = None -> AdminOverride.loadIndex fs city = ∅) /\
  (forall (f : jsstring) (m : Meta),
     AdminOverride.loadIndex fs city !! f = Some m ->
     is_txt f = true /\
     exists a t rest,
       In (f :: a :: t :: rest) (index_rows (read fs city (str "index.csv")))
       /\ m = {| article := Some a; title := Some t |}).
Proof.
  split; [|split; [|split]].
  - unfold AdminOverride.loadAll. now intros [-> | ->].
  - intros f t. unfold AdminOverride.loadAll.
    destruct (fs_dir fs city); try contradiction.
    intros H. apply in_map_iff in H as (f' & E & H). injection E as <- _.
    now apply filter_In in H.
  - intros H. unfold AdminOverride.loadIndex, read. now rewrite H.
  - intros f m H. unfold AdminOverride.loadIndex in H.
    destruct (negb _); [now rewrite lookup_empty in H|].
    apply fold_add_row_sound in H as [H | (a & t & rest & Hin & E & Hm)];
      [now rewrite lookup_empty in H|].
    split; [exact E | now exists a, t, rest].
Qed.

(** C9 fails on the "robust errors" revision, where the other revision does
    what the claim says: [readdirSync] is not guarded, so a content
    directory that exists and cannot be listed makes [loadAll] throw; and
    [loadIndex] keeps a row of two fields, its title undefined. *)
Theorem robust_loaders_throw_and_keep_short_rows :
  fs_dir short_row_fs (str "greenvale") = Unreadable /\
  RobustErrors.loadAll short_row_fs (str "greenvale") = None /\
  AdminOverride.loadAll short_row_fs (str "greenvale") = [] /\
  index_rows (read short_row_fs (str "greenvale") (str "index.csv"))
    = [[str "a.txt"; str "4"]] /\
  RobustErrors.loadIndex short_row_fs (str "greenvale") !! str "a.txt"
    = Some {| article := Some (str "4"); title := None |} /\
  AdminOverride.loadIndex short_row_fs (str "greenvale") !! str "a.txt" = None.
Proof. vm_compute. repeat split. Qed.


(** * Further properties of the code *)

(** ** White space and case *)

Lemma trimStart_nil (s : jsstring) :
  trimStart s = [] <-> forallb is_space s = true.
Proof.
  induction s as [|c s IH]; simpl; [tauto|].
  destruct (is_space c); simpl; [exact IH|]. split; discriminate.
Qed.

Lemma trimStart_head (s r : jsstring) (c : N) :
  trimStart s = c :: r -> is_space c = false.
Proof.
  induction s as [|a s IH]; simpl; [discriminate|].
  destruct (is_space a) eqn:E; [exact IH|]. now intros [= <- _].
Qed.

Lemma trimStart_fixed (c : N) (s : jsstring) :
  is_space c = false -> trimStart (c :: s) = c :: s.
Proof. intros H. simpl. now rewrite H. Qed.

Lemma trimStart_idem (s : jsstring) : trimStart (trimStart s) = trimStart s.
Proof.
  destruct (trimStart s) as [|c r] eqn:E; [reflexivity|].
  apply trimStart_fixed. exact (trimStart_head s r c E).
Qed.

Lemma trimStart_snoc (l : jsstring) (c : N) :
  is_space c = false -> exists l', trimStart (l ++ [c]) = l' ++ [c].
Proof.
  intros H. induction l as [|a l IH]; simpl.
  - rewrite H. now exists [].
  - destruct (is_space a); [exact IH | now exists (a :: l)].
Qed.

(** What [trimEnd] leaves of a text that starts with no white space starts
    with the same character. *)
Lemma trimEnd_head (c : N) (s : jsstring) :
  is_space c = false -> exists r, trimEnd (c :: s) = c :: r.
Proof.
  intros H. unfold trimEnd. cbn [rev].
  destruct (trimStart_snoc (rev s) c H) as [l' ->].
  exists (rev l'). now rewrite rev_app_distr.
Qed.

Lemma trimEnd_idem (s : jsstring) : trimEnd (trimEnd s) = trimEnd s.
Proof. unfold trimEnd. now rewrite rev_involutive, trimStart_idem. Qed.

(** [trim] is idempotent. *)
Lemma trim_idem (s : jsstring) : trim (trim s) = trim s.
Proof.
  unfold trim. destruct (trimStart s) as [|c r] eqn:E; [reflexivity|].
  pose proof (trimStart_head s r c E) as Hc.
  destruct (trimEnd_head c r Hc) as [r' Hr]. rewrite Hr.
  rewrite (trimStart_fixed c r' Hc), <- Hr. apply trimEnd_idem.
Qed.

(** A text is blank for [trim] exactly when it holds white space only. *)
Lemma trim_nil (s : jsstring) : trim s = [] <-> forallb is_space s = true.
Proof.
  unfold trim. split.
  - intros H. destruct (trimStart s) as [|c r] eqn:E.
    + now apply trimStart_nil.
    + destruct (trimEnd_head c r (trimStart_head s r c E)) as [r' Hr].
      rewrite Hr in H. discriminate.
  - intros H. apply trimStart_nil in H. now rewrite H.
Qed.

Lemma trim_not_nil (s : jsstring) (c : N) :
  In c s -> is_space c = false -> trim s <> [].
Proof.
  intros Hin Hc H. apply trim_nil in H.
  rewrite forallb_forall in H. apply H in Hin. congruence.
Qed.

Lemma is_space_lower (c : N) : is_space (lower_char c) = is_space c.
Proof.
  unfold lower_char. destruct (is_upper c || is_upper_latin1 c) eqn:U; [|reflexivity].
  apply lower_char_shifted in U. unfold is_space.
  destruct U as [U | [U U']]; decide_class; reflexivity.
Qed.

Lemma trimStart_lower (s : jsstring) :
  trimStart (toLowerCase s) = toLowerCase (trimStart s).
Proof.
  induction s as [|c s IH]; [reflexivity|]. cbn [toLowerCase map trimStart].
  rewrite is_space_lower. destruct (is_space c); [exact IH | reflexivity].
Qed.

Lemma toLowerCase_rev (s : jsstring) : toLowerCase (rev s) = rev (toLowerCase s).
Proof. apply map_rev. Qed.

(** Lower-casing and trimming commute. *)
Lemma trim_lower (s : jsstring) : trim (toLowerCase s) = toLowerCase (trim s).
Proof.
  unfold trim, trimEnd.
  now rewrite trimStart_lower, <- toLowerCase_rev, trimStart_lower, toLowerCase_rev.
Qed.

Lemma toLowerCase_idem (s : jsstring) : toLowerCase (toLowerCase s) = toLowerCase s.
Proof.
  unfold toLowerCase. rewrite map_map. apply map_ext. apply lower_char_idem.
Qed.

(** ** The gate, case by case *)

Lemma gate_with_pass_iff (parseDate : jsstring -> option Z)
    (planner_of : CityConfig -> option jsstring) (cities : Cities)
    (enabled : bool) (now : Z) (req : Request) (city : jsstring)
    (planner : option jsstring) :
  gate_with parseDate planner_of cities enabled now req = Pass city planner <->
  enabled = true /\ city = city_of req /\
  exists cfg,
    getCityConfig cities (city_of req) = Some cfg /\ planner = planner_of cfg /\
    token_of req <> [] /\ cfg_token cfg = Some (token_of req) /\
    isWithinWindow parseDate now (cfg_start cfg) (cfg_end cfg) = true.
Proof.
  rewrite gate_with_unfold. split.
  - destruct (getCityConfig cities (city_of req)) as [cfg|]; [|discriminate].
    destruct enabled; cbn [negb]; [|discriminate].
    destruct (token_of req) as [|c t] eqn:T; cbn [truthy negb orb]; [discriminate|].
    destruct (bool_decide _) eqn:B; cbv iota; [discriminate|].
    apply bool_decide_eq_false_1 in B.
    destruct (isWithinWindow parseDate now (cfg_start cfg) (cfg_end cfg)) eqn:W;
      cbn [negb]; cbv iota; [|discriminate].
    intros [= <- <-]. repeat split. exists cfg. repeat split; auto.
    destruct (decide (cfg_token cfg = Some (c :: t))) as [E | E]; [exact E|].
    exfalso. apply B. intros X. apply E. symmetry. exact X.
  - intros (-> & -> & cfg & R & -> & Hne & Htok & W).
    rewrite R. cbn [negb].
    destruct (token_of req) as [|c t]; [congruence|]. cbn [truthy negb orb].
    rewrite bool_decide_eq_false_2 by (rewrite Htok; tauto).
    now rewrite W.
Qed.

(** X1: the gate calls [next()] exactly when access is enabled, the lookup
    of the lower-cased trimmed city gives a configuration, the trimmed
    token is not empty and equals the token of that configuration, and the
    time is within its window; it then hands on that city and the planner
    of the configuration.  So it never passes a request otherwise. *)
Theorem gate_passes_exactly_when
    (parseDate : jsstring -> option Z) (cities : Cities) (enabled : bool)
    (now : Z) (req : Request) (city : jsstring) (planner : option jsstring) :
  (AdminOverride.gate parseDate cities enabled now req = Pass city planner <->
   enabled = true /\ city = city_of req /\
   exists cfg,
     getCityConfig cities (city_of req) = Some cfg /\ planner = cfg_planner cfg /\
     token_of req <> [] /\ cfg_token cfg = Some (token_of req) /\
     isWithinWindow parseDate now (cfg_start cfg) (cfg_end cfg) = true) /\
  (RobustErrors.gate parseDate cities enabled now req = Pass city planner <->
   enabled = true /\ city = city_of req /\
   exists cfg,
     getCityConfig cities (city_of req) = Some cfg /\
     planner = RobustErrors.planner_or_default cfg /\
     token_of req <> [] /\ cfg_token cfg = Some (token_of req) /\
     isWithinWindow parseDate now (cfg_start cfg) (cfg_end cfg) = true).
Proof. split; apply gate_with_pass_iff. Qed.

Lemma gate_with_unknown_iff (parseDate : jsstring -> option Z)
    (planner_of : CityConfig -> option jsstring) (cities : Cities)
    (enabled : bool) (now : Z) (req : Request) :
  gate_with parseDate planner_of cities enabled now req = UnknownTenant
  <-> ~ In (city_of req) (map fst cities) /\ inherited (city_of req) = false.
Proof.
  rewrite <- getCityConfig_None, gate_with_unfold.
  destruct (getCityConfig cities (city_of req)) as [cfg|]; [|tauto].
  split; [|discriminate].
  destruct (negb enabled); [discriminate|].
  destruct (_ || _); [discriminate|].
  destruct (negb _); discriminate.
Qed.

(** X2: the gate answers "Unknown city" exactly when the lower-cased
    trimmed city is neither a key of the configuration nor a name the
    configuration object inherits from [Object.prototype] ([constructor],
    [__proto__], ...), whatever the flag, the token and the time: the
    lookup comes before the kill switch, so a disabled service still tells
    a configured city from an unknown one.  For an inherited name the
    lookup returns a member of the prototype, which has no token: such a
    request is answered like one for a tenant, by the closed page when
    access is disabled and by 401 otherwise. *)
Theorem unknown_city_is_told_before_the_kill_switch
    (parseDate : jsstring -> option Z) (cities : Cities) (enabled : bool)
    (now : Z) (req : Request) :
  (AdminOverride.gate parseDate cities enabled now req = UnknownTenant
   <-> ~ In (city_of req) (map fst cities) /\ inherited (city_of req) = false) /\
  (RobustErrors.gate parseDate cities enabled now req = UnknownTenant
   <-> ~ In (city_of req) (map fst cities) /\ inherited (city_of req) = false) /\
  (~ In (city_of req) (map fst cities) -> inherited (city_of req) = true ->
   AdminOverride.gate parseDate cities enabled now req
     = (if enabled then InvalidToken else ServiceSuspended) /\
   RobustErrors.gate parseDate cities enabled now req
     = (if enabled then InvalidToken else ServiceSuspended)) /\
  inherited (str "constructor") = true /\ inherited (str "__proto__") = true.
Proof.
  split; [apply gate_with_unknown_iff|]. split; [apply gate_with_unknown_iff|].
  split; [|split; reflexivity].
  intros Hn Hi.
  assert (R : getCityConfig cities (city_of req) = Some prototype_member).
  { unfold getCityConfig. rewrite Hi.
    destruct (own_property cities (city_of req)) eqn:O; [|reflexivity].
    exfalso. apply Hn. apply own_property_In. rewrite O. discriminate. }
  unfold AdminOverride.gate, RobustErrors.gate.
  rewrite !gate_with_unfold, R. destruct enabled; cbn [negb]; [|auto].
  destruct (token_of req) as [|c t]; cbn [truthy negb orb]; [auto|].
  rewrite bool_decide_eq_true_2 by discriminate. auto.
Qed.

Lemma gate_with_suspended_iff (parseDate : jsstring -> option Z)
    (planner_of : CityConfig -> option jsstring) (cities : Cities)
    (enabled : bool) (now : Z) (req : Request) (cfg : CityConfig) :
  getCityConfig cities (city_of req) = Some cfg ->
  gate_with parseDate planner_of cities enabled now req = ServiceSuspended <->
  enabled = false \/
  (token_of req <> [] /\ cfg_token cfg = Some (token_of req) /\
   isWithinWindow parseDate now (cfg_start cfg) (cfg_end cfg) = false).
Proof.
  intros R. rewrite gate_with_unfold, R.
  destruct enabled; cbn [negb]; [|split; auto].
  destruct (token_of req) as [|c t] eqn:T; cbn [truthy negb orb].
  - split; [discriminate|]. intros [H | [H _]]; congruence.
  - destruct (bool_decide _) eqn:B.
    + apply bool_decide_eq_true_1 in B. split; [discriminate|].
      intros [H | (_ & H & _)]; [discriminate | congruence].
    + apply bool_decide_eq_false_1 in B.
      assert (E : cfg_token cfg = Some (c :: t)).
      { destruct (decide (cfg_token cfg = Some (c :: t))) as [E | E]; [exact E|].
        exfalso. apply B. intros X. apply E. symmetry. exact X. }
      destruct (isWithinWindow parseDate now (cfg_start cfg) (cfg_end cfg)); cbn [negb].
      * split; [discriminate|]. intros [H | (_ & _ & H)]; discriminate.
      * split; [|reflexivity]. intros _. right. repeat split; [discriminate | exact E].
Qed.

(** X3: for a city the lookup resolves, the gate sends the closed page
    exactly when access is disabled, or the trimmed token is right and the
    time is outside the window: the token is tested before the window, so
    without the token a caller is answered 401 inside and outside the
    window alike. *)
Theorem closed_page_exactly_when
    (parseDate : jsstring -> option Z) (cities : Cities) (enabled : bool)
    (now : Z) (req : Request) (cfg : CityConfig) :
  getCityConfig cities (city_of req) = Some cfg ->
  (AdminOverride.gate parseDate cities enabled now req = ServiceSuspended <->
   enabled = false \/
   (token_of req <> [] /\ cfg_token cfg = Some (token_of req) /\
    isWithinWindow parseDate now (cfg_start cfg) (cfg_end cfg) = false)) /\
  (RobustErrors.gate parseDate cities enabled now req = ServiceSuspended <->
   enabled = false \/
   (token_of req <> [] /\ cfg_token cfg = Some (token_of req) /\
    isWithinWindow parseDate now (cfg_start cfg) (cfg_end cfg) = false)).
Proof. intros R. split; now apply gate_with_suspended_iff. Qed.

Lemma closed_page_exactly_when_witness :
  AdminOverride.gate sample_clock sample_cities true 2001
    (request "riverton" "rv-token") = ServiceSuspended.
Proof.
  apply (proj1 (closed_page_exactly_when sample_clock sample_cities true 2001
                  (request "riverton" "rv-token") riverton eq_refl)).
  right. vm_compute. repeat split; discriminate.
Defined.

(** X4: a window whose start or end is no date, or whose end is before its
    start, admits nobody: with access enabled and the right token the gate
    sends the closed page at every time. *)
Theorem broken_window_admits_nobody
    (parseDate : jsstring -> option Z) (cities : Cities) (now : Z)
    (req : Request) (cfg : CityConfig) (s e : jsstring) :
  getCityConfig cities (city_of req) = Some cfg ->
  token_of req <> [] -> cfg_token cfg = Some (token_of req) ->
  cfg_start cfg = Some s -> cfg_end cfg = Some e -> s <> [] -> e <> [] ->
  (parseDate s = None \/ parseDate e = None \/
   exists ts te, parseDate s = Some ts /\ parseDate e = Some te /\ (te < ts)%Z) ->
  AdminOverride.gate parseDate cities true now req = ServiceSuspended /\
  RobustErrors.gate parseDate cities true now req = ServiceSuspended.
Proof.
  intros R Hne Htok Hs He Hs0 He0 Hbad.
  assert (W : isWithinWindow parseDate now (cfg_start cfg) (cfg_end cfg) = false).
  { rewrite Hs, He. unfold isWithinWindow.
    destruct s; [congruence|]. destruct e; [congruence|]. cbn [truthy_opt truthy negb orb or_empty].
    destruct Hbad as [-> | [-> | (ts & te & -> & -> & Hlt)]]; [reflexivity | |].
    - now destruct (parseDate _).
    - apply andb_false_iff. rewrite !Z.leb_gt. lia. }
  split; apply (gate_with_suspended_iff _ _ _ _ _ _ _ R); right; auto.
Qed.

Lemma broken_window_admits_nobody_witness :
  AdminOverride.gate sample_clock more_cities true 1500
    (request "harbortown" "hb-token") = ServiceSuspended /\
  RobustErrors.gate sample_clock more_cities true 1500
    (request "harbortown" "hb-token") = ServiceSuspended.
Proof.
  apply (broken_window_admits_nobody sample_clock more_cities 1500
           (request "harbortown" "hb-token") harbortown (str "soon") (str "2000")).
  - reflexivity.
  - discriminate.
  - reflexivity.
  - reflexivity.
  - reflexivity.
  - discriminate.
  - discriminate.
  - left. reflexivity.
Defined.

(** X5: the city the gate hands on is in canonical form: it is a key of
    the configuration, lower-casing or trimming it changes nothing, and a
    request that presents it is resolved to the same city. *)
Theorem passed_city_is_canonical
    (parseDate : jsstring -> option Z) (cities : Cities) (enabled : bool)
    (now : Z) (req : Request) (city : jsstring) (planner : option jsstring) :
  AdminOverride.gate parseDate cities enabled now req = Pass city planner
  \/ RobustErrors.gate parseDate cities enabled now req = Pass city planner ->
  In city (map fst cities) /\ toLowerCase city = city /\ trim city = city /\
  city_of {| query_city := Some city; query_token := query_token req |} = city.
Proof.
  intros H.
  assert (Hc : city = city_of req /\
               exists cfg, getCityConfig cities (city_of req) = Some cfg /\
                           cfg_token cfg = Some (token_of req)).
  { destruct H as [H | H]; apply gate_with_pass_iff in H
      as (_ & Hc & cfg & R & _ & _ & K & _); split; eauto. }
  destruct Hc as [-> Hk].
  assert (L : toLowerCase (city_of req) = city_of req).
  { unfold city_of. now rewrite <- trim_lower, toLowerCase_idem. }
  assert (T : trim (city_of req) = city_of req) by apply trim_idem.
  repeat split; auto.
  - destruct Hk as (cfg' & R' & K). apply (getCityConfig_token _ _ _ R').
    rewrite K. discriminate.
  - unfold city_of at 1. cbn [query_city or_empty]. now rewrite L, T.
Qed.

Lemma passed_city_is_canonical_witness :
  In (str "greenvale") (map fst sample_cities) /\
  toLowerCase (str "greenvale") = str "greenvale" /\
  trim (str "greenvale") = str "greenvale" /\
  city_of {| query_city := Some (str "greenvale");
             query_token := query_token (request " GreenVale " "gv-token") |}
    = str "greenvale".
Proof.
  apply (passed_city_is_canonical sample_clock sample_cities true 0
           (request " GreenVale " "gv-token") (str "greenvale") (Some (str "Avery"))).
  left. vm_compute. reflexivity.
Defined.

(** ** The flag and the operator *)

(** X6: at start access is disabled exactly when ACCESS_ENABLED is set to
    the word false in any letter case; unset, empty or any other value
    leaves access enabled. *)
Theorem access_starts_disabled_only_on_false (ACCESS_ENABLED : option jsstring) :
  initial_access ACCESS_ENABLED = false <->
  exists s, ACCESS_ENABLED = Some s /\ toLowerCase s = str "false".
Proof.
  unfold initial_access. rewrite negb_false_iff, bool_decide_eq_true.
  destruct ACCESS_ENABLED as [s|].
  - split; [intros H; now exists s | now intros (s' & [= <-] & H)].
  - split; [discriminate | now intros (s' & [=] & _)].
Qed.

Lemma serve_flag (gate : bool -> Z -> Request -> Outcome) (ADMIN_KEY : jsstring)
    (flag : bool) (e : Event) :
  fst (serve gate ADMIN_KEY flag e)
  = match flag_write ADMIN_KEY e with Some b => b | None => flag end.
Proof.
  destruct e as [now req | req]; cbn [serve flag_write fst]; [reflexivity|].
  unfold admin_toggle. destruct (adminAuth ADMIN_KEY req); [|reflexivity].
  now destruct (toggle_body req).
Qed.

(** X7: after any sequence of requests the flag holds the value of the
    last toggle request that presented the operator key and whose body the
    route read and parsed, or its initial value when there was none: gated
    requests, rejected toggles and toggles with a bad body write nothing.
    Nor does a toggle whose body [express.json()] has read before the route,
    which is every request with a JSON content type and a body, the one of
    the admin page included: with the operator key it leaves the flag as it
    is and is never answered. *)
Theorem flag_holds_the_last_authorised_write
    (gate : bool -> Z -> Request -> Outcome) (ADMIN_KEY : jsstring)
    (flag : bool) (events : list Event) :
  serve_all gate ADMIN_KEY flag events
  = match last_write ADMIN_KEY events with Some b => b | None => flag end /\
  (forall e : Event,
     flag_write ADMIN_KEY e <> None <->
     exists req val, e = Toggle req /\ adminAuth ADMIN_KEY req = true /\
                     toggle_body req = Enabled val) /\
  (forall req : AdminRequest,
     toggle_body req = Consumed ->
     admin_toggle ADMIN_KEY flag req
     = (flag, if adminAuth ADMIN_KEY req then AdminNoAnswer else AdminUnauthorized)).
Proof.
  split; [|split].
  - revert flag. induction events as [|e rest IH]; intros flag; [reflexivity|].
    cbn [serve_all last_write]. rewrite IH, serve_flag.
    now destruct (last_write ADMIN_KEY rest).
  - intros [now req | req]; cbn [flag_write].
    + split; [congruence | intros (r & v & [=] & _)].
    + split.
      * intros H. exists req.
        destruct (adminAuth ADMIN_KEY req); [|congruence].
        destruct (toggle_body req) as [| |val]; try congruence. now exists val.
      * intros (r & v & [= <-] & -> & ->). discriminate.
  - intros req H. unfold admin_toggle. rewrite H.
    now destruct (adminAuth ADMIN_KEY req).
Qed.

(** X8: [adminAuth] lets a request through exactly when the operator key is
    configured non-empty and the presented key equals it; the presented key
    is the one of the query string when that is not empty, whatever the
    body carries, and the one of the body otherwise. *)
Theorem operator_key_must_match (ADMIN_KEY : jsstring) (req : AdminRequest) :
  (adminAuth ADMIN_KEY req = true <-> ADMIN_KEY <> [] /\ presented_key req = ADMIN_KEY) /\
  (forall q, query_key req = Some q -> q <> [] -> presented_key req = q) /\
  (truthy_opt (query_key req) = false ->
   presented_key req = or_empty (body_key req)).
Proof.
  split; [|split].
  - unfold adminAuth. rewrite negb_true_iff, orb_false_iff, negb_false_iff.
    rewrite bool_decide_eq_false. split.
    + intros [Ht Hk]. split; [intros ->; discriminate|].
      destruct (decide (presented_key req = ADMIN_KEY)); tauto.
    + intros [Hne ->]. split; [now destruct ADMIN_KEY | tauto].
  - intros q Hq Hne. unfold presented_key. rewrite Hq. cbn [truthy_opt or_empty].
    now destruct q.
  - intros H. unfold presented_key. now rewrite H.
Qed.

(** ** Scores and the context *)

Lemma block_not_nil (d : Scored) : block d <> [].
Proof. unfold block. discriminate. Qed.

Lemma join_cons (sep p : jsstring) (l : list jsstring) :
  exists tail, join sep (p :: l) = p ++ tail.
Proof.
  destruct l as [|p' l]; cbn [join].
  - exists []. now rewrite app_nil_r.
  - now exists (sep ++ join sep (p' :: l)).
Qed.

Lemma sort_scored_nil (l : list Scored) : sort_scored l = [] -> l = [].
Proof.
  intros H. apply Permutation_nil. rewrite <- H. apply sort_scored_perm.
Qed.

(** X9: the assembled context is empty exactly when the corpus is empty or
    the budget is not positive. *)
Theorem context_is_empty_exactly_when
    (all : list (jsstring * jsstring)) (question : option jsstring) (maxChars : Z) :
  (AdminOverride.sliceByKeywords all question maxChars = []
   <-> all = [] \/ (maxChars <= 0)%Z) /\
  (RobustErrors.sliceByKeywords all question maxChars = []
   <-> all = [] \/ (maxChars <= 0)%Z).
Proof.
  unfold AdminOverride.sliceByKeywords, RobustErrors.sliceByKeywords,
    AdminOverride.assemble, RobustErrors.assemble.
  destruct (sort_scored (score_all all question)) as [|d rest] eqn:S.
  - apply sort_scored_nil in S. unfold score_all in S. apply map_eq_nil in S.
    subst all. split; split; auto.
  - assert (Hall : all <> []).
    { intros ->. discriminate. }
    cbn [AdminOverride.push_blocks RobustErrors.append_blocks].
    destruct (maxChars <=? 0)%Z eqn:E.
    + apply Z.leb_le in E. split; split; auto.
    + apply Z.leb_gt in E. split; split.
      * destruct (join_cons [newline] (block d)
                    (AdminOverride.push_blocks maxChars (0 + text_length d) rest))
          as [tail ->].
        intros H. apply app_eq_nil in H as [H _]. now apply block_not_nil in H.
      * intros [H | H]; [contradiction | lia].
      * unfold RobustErrors.block2. rewrite <- !app_assoc.
        intros H. apply app_eq_nil in H as [H _]. now apply block_not_nil in H.
      * intros [H | H]; [contradiction | lia].
Qed.

(** X10: with a corpus that is not empty and a positive budget, the context
    starts with the block of a document of the highest score, the first of
    them in the enumeration of the corpus: the header line with its file
    name, its whole trimmed text and a newline (and an empty line in the
    second revision). *)
Theorem context_starts_with_the_best_document
    (all : list (jsstring * jsstring)) (question : option jsstring) (maxChars : Z) :
  all <> [] -> (0 < maxChars)%Z ->
  exists (d : Scored) (others : list Scored) (tail tail' : jsstring),
    In d (score_all all question) /\
    (forall d', In d' (score_all all question) -> score d' <= score d) /\
    of_score (score d) (score_all all question) = d :: others /\
    AdminOverride.sliceByKeywords all question maxChars
      = str "--- " ++ file d ++ str " ---" ++ [newline] ++ trim (text d)
        ++ [newline] ++ tail /\
    RobustErrors.sliceByKeywords all question maxChars
      = str "--- " ++ file d ++ str " ---" ++ [newline] ++ trim (text d)
        ++ [newline] ++ [newline] ++ tail'.
Proof.
  intros Hall Hm.
  pose proof (sort_scored_perm (score_all all question)) as P.
  pose proof (sort_scored_sorted (score_all all question)) as S.
  pose proof (fun n => sort_scored_stable n (score_all all question)) as St.
  unfold AdminOverride.sliceByKeywords, RobustErrors.sliceByKeywords,
    AdminOverride.assemble, RobustErrors.assemble.
  destruct (sort_scored (score_all all question)) as [|d rest] eqn:E.
  - apply sort_scored_nil in E. unfold score_all in E. apply map_eq_nil in E.
    contradiction.
  - cbn [AdminOverride.push_blocks RobustErrors.append_blocks].
    replace (maxChars <=? 0)%Z with false by (symmetry; apply Z.leb_gt; lia).
    destruct (join_cons [newline] (block d)
                (AdminOverride.push_blocks maxChars (0 + text_length d) rest))
      as [tail Ht].
    exists d, (of_score (score d) rest), tail,
      (RobustErrors.append_blocks maxChars (0 + text_length d) rest).
    split; [apply (Permutation_in _ P); now left|].
    split.
    + intros d' Hd'. apply (Permutation_in _ (Permutation_sym P)) in Hd'.
      destruct Hd' as [<- | Hd']; [lia|].
      inversion S as [|? ? _ Hle]; subst.
      exact (proj1 (List.Forall_forall _ _) Hle d' Hd').
    + split; [now rewrite <- St, of_score_head|]. split.
      * rewrite Ht. unfold block. now rewrite <- !app_assoc.
      * rewrite block2_text. now rewrite <- !app_assoc.
Qed.

Lemma context_starts_with_the_best_document_witness :
  exists (d : Scored) (others : list Scored) (tail tail' : jsstring),
    In d (score_all sample_corpus (Some (str "parking district"))) /\
    (forall d', In d' (score_all sample_corpus (Some (str "parking district")))
                -> score d' <= score d) /\
    of_score (score d) (score_all sample_corpus (Some (str "parking district")))
      = d :: others /\
    AdminOverride.sliceByKeywords sample_corpus (Some (str "parking district")) 6000
      = str "--- " ++ file d ++ str " ---" ++ [newline] ++ trim (text d)
        ++ [newline] ++ tail /\
    RobustErrors.sliceByKeywords sample_corpus (Some (str "parking district")) 6000
      = str "--- " ++ file d ++ str " ---" ++ [newline] ++ trim (text d)
        ++ [newline] ++ [newline] ++ tail'.
Proof.
  apply (context_starts_with_the_best_document sample_corpus
           (Some (str "parking district")) 6000).
  - discriminate.
  - lia.
Defined.

Lemma filter_length_bound {A : Type} (f : A -> bool) (l : list A) :
  length (List.filter f l) <= length l.
Proof.
  induction l as [|x l IH]; simpl; [lia|]. destruct (f x); simpl; lia.
Qed.

Lemma filter_long_nil (l : list jsstring) :
  (forall t, In t l -> length t < 3) ->
  List.filter (fun t => 3 <=? length t) l = [].
Proof.
  induction l as [|t r IH]; intros H; [reflexivity|]. cbn [List.filter].
  replace (3 <=? length t) with false.
  - apply IH. intros t' Ht'. apply H. now right.
  - symmetry. apply Nat.leb_gt. apply H. now left.
Qed.

(** X11: when the question has no token of three characters or more (an
    empty question, for one), every document scores its bonus terms only,
    at most 7 quarters, that is 1.75. *)
Theorem short_question_scores_the_bonus_only
    (all : list (jsstring * jsstring)) (question : option jsstring) :
  (forall t, In t (query_tokens question) -> length t < 3) ->
  Forall (fun d => score d = bonus_count (toLowerCase (text d)) /\ score d <= 7)
         (score_all all question).
Proof.
  intros Hshort. unfold score_all. apply List.Forall_forall. intros d Hd.
  apply in_map_iff in Hd as (e & <- & _).
  rewrite score_entry_stated. cbn [text score_entry].
  unfold stated_score, whole_word_sum.
  rewrite filter_long_nil.
  - cbn [map list_sum]. rewrite Nat.mul_0_r, Nat.add_0_l. split; [reflexivity|].
    unfold bonus_count. apply (filter_length_bound _ bonus_terms).
  - intros t Ht. apply Hshort. now apply query_terms_dedup.
Qed.

Lemma short_question_scores_the_bonus_only_witness :
  Forall (fun d => score d = bonus_count (toLowerCase (text d)) /\ score d <= 7)
         (score_all sample_corpus (Some (str "is it ok?"))).
Proof.
  apply (short_question_scores_the_bonus_only sample_corpus (Some (str "is it ok?"))).
  intros t Ht. vm_compute in Ht.
  destruct Ht as [<- | [<- | [<- | []]]]; vm_compute; lia.
Defined.

Lemma lower_alnum_fixed (c : N) :
  lower_char c = c -> is_alnum c = true -> is_lower c || is_digit c = true.
Proof.
  unfold lower_char, is_alnum.
  destruct (is_upper c || is_upper_latin1 c) eqn:U; [lia|].
  apply orb_false_iff in U as [-> _]. intros _ H. exact H.
Qed.

(** X12: every term of a question is a non-empty run of lower-case letters
    and digits, so [escapeReg] returns it unchanged: the pattern built for
    a term holds the term itself between the two word boundaries. *)
Theorem terms_need_no_escaping (question : option jsstring) (t : jsstring) :
  In t (query_terms question) ->
  t <> [] /\ forallb (fun c => is_lower c || is_digit c) t = true
  /\ escapeReg t = t.
Proof.
  intros Ht. apply query_terms_dedup in Ht.
  apply query_tokens_lower in Ht as (Hl & Hne & Ha).
  split; [exact Hne|]. split; [|now apply escapeReg_alnum].
  apply forallb_forall. intros c Hc.
  apply lower_alnum_fixed.
  - unfold toLowerCase in Hl.
    assert (E : forall l : jsstring, map lower_char l = l -> In c l -> lower_char c = c).
    { induction l as [|a l IH]; [contradiction|]. cbn [map].
      intros [= Ea El] [<- | Hin]; auto. }
    now apply (E t).
  - exact (proj1 (List.Forall_forall _ _) Ha c Hc).
Qed.

Lemma terms_need_no_escaping_witness :
  str "b2" <> [] /\ forallb (fun c => is_lower c || is_digit c) (str "b2") = true
  /\ escapeReg (str "b2") = str "b2".
Proof.
  apply (terms_need_no_escaping (Some (str "Parking (in) zone B2?")) (str "b2")).
  vm_compute. tauto.
Defined.

Lemma total_length_perm (l l' : list Scored) :
  Permutation l l' -> total_length l = total_length l'.
Proof.
  induction 1 as [| x l l' _ IH | x y l | l l' l'' _ IH1 _ IH2]; simpl; lia.
Qed.

Lemma appended_all (maxChars : Z) (l : list Scored) (total : Z) :
  (total + total_length l < maxChars)%Z -> appended maxChars total l = l.
Proof.
  revert total. induction l as [|s r IH]; intros total H; [reflexivity|].
  cbn [appended]. cbn [total_length fold_right] in H. fold (total_length r) in H.
  pose proof (total_length_nonneg r) as Hr.
  assert (Hs : (0 <= text_length s)%Z) by (unfold text_length; lia).
  replace (maxChars <=? total)%Z with false by (symmetry; apply Z.leb_gt; lia).
  f_equal. apply IH. lia.
Qed.

Lemma total_length_score_all (all : list (jsstring * jsstring))
    (question : option jsstring) :
  total_length (score_all all question)
  = Z.of_nat (list_sum (map (fun e => length (snd e)) all)).
Proof.
  rewrite total_length_sum. unfold score_all. now rewrite map_map.
Qed.

(** X13: when the texts of the corpus, untrimmed, are together shorter than
    the budget, no document is left out: the context of the second
    revision is made of the blocks of all documents in the order of the
    sorted list, each with its header line, its whole trimmed text, a
    newline and an empty line; the context of the first is the same
    without the last newline. *)
Theorem corpus_under_budget_is_kept_whole
    (all : list (jsstring * jsstring)) (question : option jsstring) (maxChars : Z) :
  (Z.of_nat (list_sum (map (fun e => length (snd e)) all)) < maxChars)%Z ->
  RobustErrors.sliceByKeywords all question maxChars
    = concat (map (fun d => str "--- " ++ file d ++ str " ---" ++ [newline]
                            ++ trim (text d) ++ [newline] ++ [newline])
                  (sort_scored (score_all all question))) /\
  AdminOverride.sliceByKeywords all question maxChars
    = removelast (RobustErrors.sliceByKeywords all question maxChars).
Proof.
  intros H. rewrite <- (total_length_score_all all question) in H.
  unfold AdminOverride.sliceByKeywords, RobustErrors.sliceByKeywords,
    AdminOverride.assemble, RobustErrors.assemble.
  rewrite push_blocks_appended, append_blocks_appended, appended_all.
  - split; [|apply join_removelast].
    f_equal. apply map_ext. exact block2_text.
  - rewrite (total_length_perm _ _ (sort_scored_perm (score_all all question))). lia.
Qed.

Lemma corpus_under_budget_is_kept_whole_witness :
  RobustErrors.sliceByKeywords sample_corpus (Some (str "pets")) 6000
    = concat (map (fun d => str "--- " ++ file d ++ str " ---" ++ [newline]
                            ++ trim (text d) ++ [newline] ++ [newline])
                  (sort_scored (score_all sample_corpus (Some (str "pets"))))) /\
  AdminOverride.sliceByKeywords sample_corpus (Some (str "pets")) 6000
    = removelast (RobustErrors.sliceByKeywords sample_corpus (Some (str "pets")) 6000).
Proof.
  apply (corpus_under_budget_is_kept_whole sample_corpus (Some (str "pets")) 6000).
  vm_compute. reflexivity.
Defined.

(** ** The index *)

Lemma cons_head_chars (c a : N) (l : list jsstring) (p : jsstring) (s : jsstring) :
  (forall q, In q l -> In a q -> In a s) ->
  In p (cons_head c l) -> In a p -> In a (c :: s).
Proof.
  intros H Hp Ha. apply cons_head_In in Hp as [(p' & -> & Hp') | Hp].
  - destruct Ha as [<- | Ha]; [now left|]. right.
    destruct Hp' as [Hp' | ->]; [exact (H p' Hp' Ha) | contradiction].
  - right. exact (H p Hp Ha).
Qed.

Lemma split_char_chars (d : N) (s p : jsstring) (x : N) :
  In p (split_char d s) -> In x p -> In x s.
Proof.
  revert p. induction s as [|c s IH]; intros p; cbn [split_char].
  - intros [<- | []] Hx. exact Hx.
  - destruct (N.eqb c d).
    + intros [<- | Hp] Hx; [contradiction | right; exact (IH p Hp Hx)].
    + intros Hp Hx. exact (cons_head_chars c x (split_char d s) p s IH Hp Hx).
Qed.

Lemma split_lines_chars (s : jsstring) :
  forall (p : jsstring) (x : N), In p (split_lines s) -> In x p -> In x s.
Proof.
  induction s as [s IH] using (induction_ltof1 _ (@length N)).
  unfold ltof in IH. intros p x. destruct s as [|c r]; cbn [split_lines].
  - intros [<- | []] Hx. exact Hx.
  - destruct (N.eqb c newline).
    + intros [<- | Hp] Hx; [contradiction|]. right.
      apply (IH r) with (p := p); [simpl; lia | exact Hp | exact Hx].
    + destruct r as [|n r'].
      * intros [<- | []] Hx. exact Hx.
      * destruct (N.eqb c carriage_return && N.eqb n newline).
        -- intros [<- | Hp] Hx; [contradiction|]. right. right.
           apply (IH r') with (p := p); [simpl; lia | exact Hp | exact Hx].
        -- intros Hp Hx. apply (cons_head_chars c x (split_lines (n :: r')) p (n :: r')); [|exact Hp | exact Hx].
           intros q Hq Hy.
           apply (IH (n :: r')) with (p := q); [simpl; lia | exact Hq | exact Hy].
Qed.

Lemma trim_blank (s : jsstring) : forallb is_space s = true -> trim s = [].
Proof. apply trim_nil. Qed.

(** The fields of the rows of a blank file are empty. *)
Lemma index_rows_blank (raw : jsstring) (cols : list jsstring) (f : jsstring) :
  trim raw = [] -> In cols (index_rows raw) -> In f cols -> f = [].
Proof.
  intros Hb Hc Hf. apply trim_nil in Hb. rewrite forallb_forall in Hb.
  unfold index_rows in Hc. apply in_map_iff in Hc as (line & <- & Hl).
  apply filter_In in Hl as [Hl _].
  apply in_map_iff in Hf as (piece & <- & Hp).
  apply trim_blank. apply forallb_forall. intros x Hx. apply Hb.
  apply (split_lines_chars raw line x Hl).
  exact (split_char_chars _ line piece x Hp Hx).
Qed.

Lemma AdminOverride_loadIndex_fold (fs : FileSystem) (city : jsstring) :
  AdminOverride.loadIndex fs city
  = fold_left AdminOverride.add_row (index_rows (read fs city (str "index.csv"))) ∅.
Proof.
  unfold AdminOverride.loadIndex.
  destruct (truthy (trim (read fs city (str "index.csv")))) eqn:T; [reflexivity|].
  apply truthy_false in T. cbn [negb].
  assert (H : forall rows out,
             (forall cols f, In cols rows -> In f cols -> f = []) ->
             fold_left AdminOverride.add_row rows out = out).
  { induction rows as [|cols r IH]; intros out H; [reflexivity|].
    cbn [fold_left]. rewrite IH by (intros; eapply H; [right|]; eauto).
    destruct cols as [|file [|a [|t rest]]]; try reflexivity.
    cbn [AdminOverride.add_row].
    now rewrite (H (file :: a :: t :: rest) file (or_introl eq_refl) (or_introl eq_refl)). }
  symmetry. apply H. intros cols f. now apply index_rows_blank.
Qed.

Lemma RobustErrors_loadIndex_fold (fs : FileSystem) (city : jsstring) :
  RobustErrors.loadIndex fs city
  = fold_left RobustErrors.add_row (index_rows (read fs city (str "index.csv"))) ∅.
Proof.
  unfold RobustErrors.loadIndex.
  destruct (truthy (trim (read fs city (str "index.csv")))) eqn:T; [reflexivity|].
  apply truthy_false in T. cbn [negb].
  assert (H : forall rows out,
             (forall cols f, In cols rows -> In f cols -> f = []) ->
             fold_left RobustErrors.add_row rows out = out).
  { induction rows as [|cols r IH]; intros out H; [reflexivity|].
    cbn [fold_left]. rewrite IH by (intros; eapply H; [right|]; eauto).
    destruct cols as [|file rest]; [reflexivity|].
    cbn [RobustErrors.add_row].
    now rewrite (H (file :: rest) file (or_introl eq_refl) (or_introl eq_refl)). }
  symmetry. apply H. intros cols f. now apply index_rows_blank.
Qed.

Lemma fold_add_row_other (rows : list (list jsstring)) (out : gmap jsstring Meta)
    (file : jsstring) :
  (forall a t rest, ~ In (file :: a :: t :: rest) rows) ->
  fold_left AdminOverride.add_row rows out !! file = out !! file.
Proof.
  revert out. induction rows as [|cols r IH]; intros out H; [reflexivity|].
  cbn [fold_left]. rewrite IH by (intros a t rest Hin; apply (H a t rest); now right).
  destruct cols as [|f [|a [|t rest]]]; try reflexivity.
  cbn [AdminOverride.add_row]. destruct (is_txt f); [|reflexivity].
  apply lookup_insert_ne. intros ->. apply (H a t rest). now left.
Qed.

(** X14: in the index of the "Admin Override" revision the last good row
    of a file wins: when a row of three fields or more names a file of
    suffix .txt and no later row of three fields or more names the same
    file, the file is stored with the article and the title of that row. *)
Theorem last_row_of_a_file_wins
    (fs : FileSystem) (city : jsstring) (pre post : list (list jsstring))
    (file a t : jsstring) (rest : list jsstring) :
  index_rows (read fs city (str "index.csv"))
    = pre ++ (file :: a :: t :: rest) :: post ->
  is_txt file = true ->
  (forall a' t' rest', ~ In (file :: a' :: t' :: rest') post) ->
  AdminOverride.loadIndex fs city !! file
  = Some {| article := Some a; title := Some t |}.
Proof.
  intros E Hf Hpost. rewrite AdminOverride_loadIndex_fold, E, fold_left_app.
  cbn [fold_left]. rewrite fold_add_row_other by exact Hpost.
  cbn [AdminOverride.add_row]. rewrite Hf. apply lookup_insert_eq.
Qed.

Lemma last_row_of_a_file_wins_witness :
  AdminOverride.loadIndex sample_fs (str "greenvale") !! str "a.txt"
  = Some {| article := Some (str "4"); title := Some (str "Parking") |}.
Proof.
  apply (last_row_of_a_file_wins sample_fs (str "greenvale")
           [[str "a.txt"; str "3"; str "Old"]] [] (str "a.txt") (str "4")
           (str "Parking") []).
  - vm_compute. reflexivity.
  - vm_compute. reflexivity.
  - intros a' t' rest' [].
Defined.

Lemma index_rows_trimmed (raw : jsstring) (cols : list jsstring) (f : jsstring) :
  In cols (index_rows raw) -> In f cols -> trim f = f.
Proof.
  unfold index_rows. intros Hc Hf.
  apply in_map_iff in Hc as (line & <- & _).
  apply in_map_iff in Hf as (piece & <- & _). apply trim_idem.
Qed.

Lemma fold_add_row_robust_sound (rows : list (list jsstring))
    (out : gmap jsstring Meta) (f : jsstring) (m : Meta) :
  fold_left RobustErrors.add_row rows out !! f = Some m ->
  out !! f = Some m \/
  exists rest,
    In (f :: rest) rows /\ is_txt f = true
    /\ m = {| article := nth_error rest 0; title := nth_error rest 1 |}.
Proof.
  revert out. induction rows as [|cols r IH]; intros out; [now left|].
  cbn [fold_left]. intros H. apply IH in H as [H | (rest & Hin & Hr)].
  - destruct cols as [|file rest]; [now left|].
    cbn [RobustErrors.add_row] in H.
    destruct (is_txt file) eqn:E; [|now left].
    apply lookup_insert_Some in H as [[<- <-] | [_ H]]; [|now left].
    right. exists rest. repeat split; [now left | exact E].
  - right. exists rest. split; [now right | exact Hr].
Qed.

(** X15: in the index of either revision every key is a trimmed file name
    of suffix .txt (in any letter case), and every article and title stored
    is trimmed: a file name with white space around it is no key. *)
Theorem index_keys_and_fields_are_trimmed
    (fs : FileSystem) (city f : jsstring) (m : Meta) :
  AdminOverride.loadIndex fs city !! f = Some m
  \/ RobustErrors.loadIndex fs city !! f = Some m ->
  is_txt f = true /\ trim f = f /\
  (forall a, article m = Some a -> trim a = a) /\
  (forall t, title m = Some t -> trim t = t).
Proof.
  intros [H | H].
  - apply AdminOverride_loaders_degrade in H as (Ht & a & t & rest & Hin & ->).
    pose proof (index_rows_trimmed _ _ f Hin (or_introl eq_refl)) as Tf.
    pose proof (index_rows_trimmed _ _ a Hin (or_intror (or_introl eq_refl))) as Ta.
    pose proof (index_rows_trimmed _ _ t Hin
                  (or_intror (or_intror (or_introl eq_refl)))) as Tt.
    repeat split; auto; cbn [article title]; now intros ? [= <-].
  - rewrite RobustErrors_loadIndex_fold in H.
    apply fold_add_row_robust_sound in H as [H | (rest & Hin & Ht & ->)];
      [now rewrite lookup_empty in H|].
    pose proof (index_rows_trimmed _ _ f Hin (or_introl eq_refl)) as Tf.
    repeat split; auto; cbn [article title]; intros x Hx;
      apply nth_error_In in Hx; apply (index_rows_trimmed _ _ x Hin); now right.
Qed.

Lemma index_keys_and_fields_are_trimmed_witness :
  is_txt (str "a.txt") = true /\ trim (str "a.txt") = str "a.txt" /\
  (forall a, article {| article := Some (str "4"); title := Some (str "Parking") |}
             = Some a -> trim a = a) /\
  (forall t, title {| article := Some (str "4"); title := Some (str "Parking") |}
             = Some t -> trim t = t).
Proof.
  apply (index_keys_and_fields_are_trimmed sample_fs (str "greenvale")).
  left. vm_compute. reflexivity.
Defined.

Lemma fold_add_row_agree (rows : list (list jsstring)) (out : gmap jsstring Meta) :
  (forall file rest, In (file :: rest) rows -> is_txt file = true ->
                     2 <= length rest) ->
  fold_left RobustErrors.add_row rows out = fold_left AdminOverride.add_row rows out.
Proof.
  revert out. induction rows as [|cols r IH]; intros out H; [reflexivity|].
  cbn [fold_left].
  replace (RobustErrors.add_row out cols) with (AdminOverride.add_row out cols).
  - apply IH. intros file rest Hin. apply H. now right.
  - destruct cols as [|file rest]; [reflexivity|].
    cbn [RobustErrors.add_row]. destruct (is_txt file) eqn:E.
    + specialize (H file rest (or_introl eq_refl) E).
      destruct rest as [|a [|t rest]]; cbn [length] in H; try lia.
      cbn [AdminOverride.add_row nth_error]. now rewrite E.
    + destruct rest as [|a [|t rest]]; try reflexivity.
      cbn [AdminOverride.add_row]. now rewrite E.
Qed.

(** X16: when every row of index.csv whose first field has the suffix .txt
    has three fields or more, the two revisions load the same index and
    rewrite every text alike. *)
Theorem revisions_agree_on_full_rows (fs : FileSystem) (city : jsstring) :
  (forall file rest,
     In (file :: rest) (index_rows (read fs city (str "index.csv"))) ->
     is_txt file = true -> 2 <= length rest) ->
  RobustErrors.loadIndex fs city = AdminOverride.loadIndex fs city /\
  forall text : jsstring,
    RobustErrors.prettyCitations fs city text
    = AdminOverride.prettyCitations fs city text.
Proof.
  intros H.
  assert (E : RobustErrors.loadIndex fs city = AdminOverride.loadIndex fs city).
  { rewrite RobustErrors_loadIndex_fold, AdminOverride_loadIndex_fold.
    now apply fold_add_row_agree. }
  split; [exact E|]. intros text.
  unfold RobustErrors.prettyCitations, AdminOverride.prettyCitations.
  now rewrite E, rewrite_with_agree.
Qed.

Lemma revisions_agree_on_full_rows_witness :
  RobustErrors.loadIndex sample_fs (str "greenvale")
    = AdminOverride.loadIndex sample_fs (str "greenvale") /\
  forall text : jsstring,
    RobustErrors.prettyCitations sample_fs (str "greenvale") text
    = AdminOverride.prettyCitations sample_fs (str "greenvale") text.
Proof.
  apply (revisions_agree_on_full_rows sample_fs (str "greenvale")).
  intros file rest Hin _. vm_compute in Hin.
  destruct Hin as [[= <- <-] | [[= <- <-] | []]]; simpl; lia.
Defined.

(** ** The route that answers *)






Lemma strip_txt_not_nil (f : jsstring) : file_name_ok f = true -> strip_txt f <> [].
Proof.
  unfold file_name_ok. rewrite andb_true_iff, Nat.leb_le. intros [_ Hlen].
  unfold strip_txt. destruct (endsWith _ _).
  - intros H. apply (f_equal (@length N)) in H.
    rewrite length_firstn in H. cbn [length] in H. lia.
  - intros ->. cbn [length] in Hlen. lia.
Qed.

Lemma label_not_nil (index : gmap jsstring Meta) (f : jsstring) :
  file_name_ok f = true -> label index f <> [].
Proof.
  intros Hf. unfold label. destruct (lookup_meta index f) as [m|].
  - apply (trim_not_nil _ 65%N); [|reflexivity].
    destruct (truthy (or_empty (article m))); now left.
  - now apply strip_txt_not_nil.
Qed.

(** Rewriting a text that is not empty gives a text that is not empty. *)
Lemma rewrite_not_nil (index : gmap jsstring Meta) (s : jsstring) :
  s <> [] -> RobustErrors.rewrite_with index s <> [].
Proof.
  intros Hs. unfold RobustErrors.rewrite_with. rewrite replace_markers_unfold.
  destruct (marker_at s) as [[f rest]|] eqn:M.
  - apply marker_at_shape in M as (_ & _ & Hk).
    intros H. apply app_eq_nil in H as [H _]. now apply (label_not_nil index f Hk).
  - destruct s; [congruence | discriminate].
Qed.

(** X18: the "robust errors" revision never answers with an empty text:
    every text it sends with status 200 holds a character. *)
Theorem robust_answer_is_never_empty
    (fs : FileSystem) (has_key : bool) (generate : Prompt -> Completion)
    (city : jsstring) (planner user : option jsstring) (t : jsstring) :
  RobustErrorsRoute.respond fs has_key generate city planner user = JsonText t ->
  t <> [].
Proof.
  unfold RobustErrorsRoute.respond.
  destruct has_key; cbn [negb]; [|discriminate].
  destruct (truthy (trim (firstn 2000 (or_empty user)))); cbn [negb];
    [|intros [= <-]; discriminate].
  destruct (RobustErrors.loadAll fs city) as [all|]; [|discriminate].
  destruct (truthy (trim (RobustErrors.sliceByKeywords all _ 6000))); cbn [negb];
    [|intros [= <-]; discriminate].
  destruct (generate _) as [|c]; [discriminate|].
  destruct (trim (or_empty c)) as [|a r] eqn:E; cbn [truthy negb]; [discriminate|].
  intros [= <-]. unfold RobustErrors.prettyCitations.
  apply rewrite_not_nil. discriminate.
Qed.

Lemma robust_answer_is_never_empty_witness :
  RobustErrors.prettyCitations sample_fs (str "greenvale") (str "See [a.txt].") <> [].
Proof.
  apply (robust_answer_is_never_empty sample_fs true sample_generate
           (str "greenvale") None (Some (str "Where may I park?"))).
  vm_compute. reflexivity.
Defined.

(** ** The revision with per-city pages *)

Lemma toLowerCase_nil (s : jsstring) : toLowerCase s = [] <-> s = [].
Proof. destruct s; simpl; split; congruence. Qed.

Lemma getCityConfig_resolves_iff (cities : Cities) (name : option jsstring) :
  PerCityPages.getCityConfig cities name <> None <->
  toLowerCase (trim (or_empty name)) <> [] /\
  exists k, In k (map fst cities)
            /\ toLowerCase k = toLowerCase (trim (or_empty name)).
Proof.
  unfold PerCityPages.getCityConfig.
  destruct (find _ (map fst cities)) as [key|] eqn:F.
  - apply find_some in F as [Hin E]. apply bool_decide_eq_true_1 in E.
    destruct key as [|c key]; cbn [truthy].
    + split; [congruence|]. intros [Hne _]. rewrite <- E in Hne.
      exfalso. apply Hne. reflexivity.
    + split; [|discriminate]. intros _. split; [rewrite <- E; discriminate|].
      now exists (c :: key).
  - split; [congruence|]. intros (_ & k & Hin & E).
    apply (find_none _ _ F) in Hin. apply bool_decide_eq_false_1 in Hin.
    contradiction.
Qed.

(** X19: [getCityConfig] of the per-city revision resolves a name exactly
    when the name is not blank and some configured key equals it up to
    letter case and surrounding white space; it returns that configured
    key, as the configuration spells it, with its configuration. *)
Theorem city_lookup_ignores_case (cities : Cities) (name : option jsstring) :
  (PerCityPages.getCityConfig cities name <> None <->
   toLowerCase (trim (or_empty name)) <> [] /\
   exists k, In k (map fst cities)
             /\ toLowerCase k = toLowerCase (trim (or_empty name))) /\
  (forall key cfg,
     PerCityPages.getCityConfig cities name = Some (key, cfg) ->
     In key (map fst cities) /\
     toLowerCase key = toLowerCase (trim (or_empty name)) /\
     cfg = own_property cities key /\ cfg <> None).
Proof.
  split; [apply getCityConfig_resolves_iff|].
  intros key cfg. unfold PerCityPages.getCityConfig.
  destruct (find _ (map fst cities)) as [k|] eqn:F; [|discriminate].
  apply find_some in F as [Hin E]. apply bool_decide_eq_true_1 in E.
  destruct (truthy k); [|discriminate]. intros [= <- <-].
  repeat split; auto. now apply own_property_In.
Qed.

(** X20: for a name that is not empty and has no white space around it,
    the page route sends the chat page exactly when [getCityConfig]
    resolves the name: a page is served only for a city the chat route
    knows, and for each of them. *)
Theorem page_is_served_exactly_for_known_cities (cities : Cities) (name : jsstring) :
  name <> [] -> trim name = name ->
  CityPages.city_page cities (Some name) = true
  <-> PerCityPages.getCityConfig cities (Some name) <> None.
Proof.
  intros Hne Ht. rewrite getCityConfig_resolves_iff. cbn [or_empty]. rewrite Ht.
  unfold CityPages.city_page, CityPages.citySlugs. cbn [or_empty].
  rewrite mem_string_In, in_map_iff. split.
  - intros (k & E & Hin). split; [now rewrite toLowerCase_nil | now exists k].
  - intros (_ & k & Hin & E). now exists k.
Qed.

Lemma page_is_served_exactly_for_known_cities_witness :
  CityPages.city_page capital_cities (Some (str "greenVALE")) = true
  <-> PerCityPages.getCityConfig capital_cities (Some (str "greenVALE")) <> None.
Proof.
  apply (page_is_served_exactly_for_known_cities capital_cities (str "greenVALE")).
  - discriminate.
  - vm_compute. reflexivity.
Defined.

Lemma field_rest_of (cfg : CityPages.JsonObject) (name : jsstring) :
  CityPages.field (CityPages.rest_of cfg) name
  = if bool_decide (name = str "envKey") || bool_decide (name = str "accessToken")
    then None else CityPages.field cfg name.
Proof.
  unfold CityPages.rest_of. induction cfg as [|[n v] r IH].
  - cbn. now destruct (_ || _).
  - cbn [List.filter fst].
    destruct (bool_decide (n = str "envKey") || bool_decide (n = str "accessToken"))
      eqn:S; cbn [negb].
    + rewrite IH. cbn [CityPages.field].
      destruct (bool_decide (n = name)) eqn:E; [|reflexivity].
      apply bool_decide_eq_true_1 in E. subst name. now rewrite S.
    + cbn [CityPages.field]. rewrite IH.
      destruct (bool_decide (n = name)) eqn:E; [|reflexivity].
      apply bool_decide_eq_true_1 in E. subst name. now rewrite S.
Qed.

(** X21: the listing of [/api/cities] has the keys of the configuration in
    their order; in each listed configuration the fields envKey and
    accessToken are absent and every other field, one named token
    included, has the value it has in the configuration. *)
Theorem city_listing_drops_two_fields_only
    (cities : list (jsstring * CityPages.JsonObject)) :
  map fst (CityPages.api_cities cities) = map fst cities /\
  Forall2 (fun listed original =>
             CityPages.field (snd listed) (str "envKey") = None /\
             CityPages.field (snd listed) (str "accessToken") = None /\
             forall name,
               name <> str "envKey" -> name <> str "accessToken" ->
               CityPages.field (snd listed) name
               = CityPages.field (snd original) name)
          (CityPages.api_cities cities) cities.
Proof.
  unfold CityPages.api_cities. split.
  - rewrite map_map. reflexivity.
  - induction cities as [|[k cfg] r IH]; cbn [map]; constructor; [|exact IH].
    cbn [snd fst]. rewrite !field_rest_of. repeat split.
    intros name H1 H2. rewrite field_rest_of.
    now rewrite !bool_decide_eq_false_2.
Qed.

(** ** More on rewriting and scoring *)

(** X22: rewriting is local: after a prefix that leaves no opening bracket
    pending (none at all, or none after its last closing bracket) the rest
    of the text is rewritten on its own, so the rewriting of the whole is
    the rewriting of the prefix followed by the rewriting of the rest. *)
Theorem rewriting_is_local (fs : FileSystem) (city pre rest : jsstring) :
  pending false pre = false ->
  AdminOverride.prettyCitations fs city (pre ++ rest)
    = AdminOverride.prettyCitations fs city pre
      ++ AdminOverride.prettyCitations fs city rest /\
  RobustErrors.prettyCitations fs city (pre ++ rest)
    = RobustErrors.prettyCitations fs city pre
      ++ RobustErrors.prettyCitations fs city rest.
Proof.
  intros H. unfold AdminOverride.prettyCitations, RobustErrors.prettyCitations.
  rewrite !rewrite_with_agree. unfold RobustErrors.rewrite_with.
  split; now apply replace_markers_app.
Qed.

Lemma rewriting_is_local_witness :
  AdminOverride.prettyCitations sample_fs (str "greenvale")
    (str "See [a.txt]" ++ str " and [b.txt].")
    = AdminOverride.prettyCitations sample_fs (str "greenvale") (str "See [a.txt]")
      ++ AdminOverride.prettyCitations sample_fs (str "greenvale") (str " and [b.txt].") /\
  RobustErrors.prettyCitations sample_fs (str "greenvale")
    (str "See [a.txt]" ++ str " and [b.txt].")
    = RobustErrors.prettyCitations sample_fs (str "greenvale") (str "See [a.txt]")
      ++ RobustErrors.prettyCitations sample_fs (str "greenvale") (str " and [b.txt].").
Proof.
  apply (rewriting_is_local sample_fs (str "greenvale") (str "See [a.txt]")
           (str " and [b.txt].")).
  reflexivity.
Defined.

Lemma strip_txt_length (f : jsstring) :
  file_name_ok f = true -> length (strip_txt f) + 4 = length f.
Proof.
  unfold file_name_ok. rewrite andb_true_iff, Nat.leb_le, endsWith_spec.
  intros [[x ->] Hlen]. rewrite strip_txt_stem, length_app.
  reflexivity.
Qed.

Lemma stripped_length (s : jsstring) :
  length s = length (replace_markers strip_txt 0 s) + 6 * length (marker_names 0 s).
Proof.
  induction s as [s IH] using (induction_ltof1 _ (@length N)).
  unfold ltof in IH.
  rewrite replace_markers_unfold, marker_names_unfold.
  destruct (marker_at s) as [[f rest]|] eqn:M.
  - apply marker_at_shape in M as (-> & _ & Hk).
    pose proof (strip_txt_length f Hk) as Hf.
    assert (Hr : length rest < length (open_bracket :: f ++ close_bracket :: rest)).
    { cbn [length]. rewrite length_app. cbn [length]. lia. }
    specialize (IH rest Hr).
    cbn [length]. rewrite !length_app. cbn [length]. lia.
  - destruct s as [|c s']; [reflexivity|].
    cbn [length]. rewrite (IH s') at 1 by (simpl; lia). lia.
Qed.

(** X23: without index.csv every marker loses its two brackets and its
    suffix and nothing else changes: the rewritten text is shorter than the
    text by six characters for each marker. *)
Theorem bare_rewriting_removes_six_characters_a_marker
    (fs : FileSystem) (city text : jsstring) :
  fs_file fs city (str "index.csv") = None ->
  length text
    = length (AdminOverride.prettyCitations fs city text)
      + 6 * length (marker_names 0 text) /\
  length text
    = length (RobustErrors.prettyCitations fs city text)
      + 6 * length (marker_names 0 text).
Proof.
  intros H.
  assert (Ea : AdminOverride.loadIndex fs city = ∅).
  { unfold AdminOverride.loadIndex, read. now rewrite H. }
  assert (Er : RobustErrors.loadIndex fs city = ∅).
  { unfold RobustErrors.loadIndex, read. now rewrite H. }
  unfold AdminOverride.prettyCitations, RobustErrors.prettyCitations.
  rewrite Ea, Er, rewrite_with_agree. unfold RobustErrors.rewrite_with.
  rewrite (replace_markers_ext (label ∅) strip_txt label_empty).
  split; apply stripped_length.
Qed.

Lemma bare_rewriting_removes_six_characters_a_marker_witness :
  length (str "See [a.txt] and [b.txt].")
    = length (AdminOverride.prettyCitations bare_fs (str "greenvale")
                (str "See [a.txt] and [b.txt]."))
      + 6 * length (marker_names 0 (str "See [a.txt] and [b.txt].")) /\
  length (str "See [a.txt] and [b.txt].")
    = length (RobustErrors.prettyCitations bare_fs (str "greenvale")
                (str "See [a.txt] and [b.txt]."))
      + 6 * length (marker_names 0 (str "See [a.txt] and [b.txt].")).
Proof.
  apply (bare_rewriting_removes_six_characters_a_marker bare_fs (str "greenvale")).
  reflexivity.
Defined.

Lemma list_sum_step (a : nat) (l : list nat) : list_sum (a :: l) = a + list_sum l.
Proof. reflexivity. Qed.

Lemma whole_word_sum_perm (cls : N -> bool) (l l' : list jsstring)
    (lower : jsstring) :
  Permutation l l' -> whole_word_sum cls l lower = whole_word_sum cls l' lower.
Proof.
  unfold whole_word_sum.
  induction 1 as [| t l l' _ IH | t u l | l l' l'' _ IH1 _ IH2].
  - reflexivity.
  - cbn [List.filter]. destruct (3 <=? length t); [|exact IH].
    cbn [map]. now rewrite !list_sum_step, IH.
  - cbn [List.filter].
    destruct (3 <=? length t), (3 <=? length u); cbn [map];
      rewrite ?list_sum_step; lia.
  - now rewrite IH1.
Qed.

(** X24: the scores depend on the set of tokens of the question only: two
    questions with the same tokens, in whatever order and however often
    repeated, give every document the same score. *)
Theorem scores_depend_on_the_set_of_tokens
    (all : list (jsstring * jsstring)) (question question' : option jsstring) :
  (forall t, In t (query_tokens question) <-> In t (query_tokens question')) ->
  score_all all question = score_all all question'.
Proof.
  intros H.
  assert (P : Permutation (query_terms question) (query_terms question')).
  { apply Permutation.NoDup_Permutation; try apply query_terms_dedup.
    intros t. rewrite !(proj2 (query_terms_dedup _)). apply H. }
  unfold score_all. apply map_ext. intros e.
  assert (E : score (score_entry (query_terms question) e)
              = score (score_entry (query_terms question') e)).
  { rewrite !score_entry_stated. unfold stated_score.
    now rewrite (whole_word_sum_perm _ _ _ _ P). }
  unfold score_entry in *. cbn [score] in E. f_equal. exact E.
Qed.

Lemma scores_depend_on_the_set_of_tokens_witness :
  score_all sample_corpus (Some (str "parking district"))
  = score_all sample_corpus (Some (str "District! Parking, parking?")).
Proof.
  apply (scores_depend_on_the_set_of_tokens sample_corpus).
  intros t. vm_compute. tauto.
Defined.

(** X25: in the "Admin Override" revision, for a question that is not
    blank, the answer is sent with an empty text exactly when the model
    returns a content that is missing or blank: there is no 502 and no
    fixed answer in this revision, and rewriting never empties a text. *)
Theorem override_answer_is_empty_exactly_when
    (fs : FileSystem) (generate : Prompt -> Completion)
    (city : jsstring) (planner user : option jsstring) :
  trim (firstn 2000 (or_empty user)) <> [] ->
  AdminOverrideRoute.respond fs generate city planner user = JsonText []
  <-> exists c,
        generate
          {| prompt_planner :=
               Some (if truthy_opt planner then or_empty planner
                     else str "Senior Planner");
             prompt_city := city;
             prompt_question := firstn 2000 (or_empty user);
             prompt_context :=
               AdminOverride.sliceByKeywords (AdminOverride.loadAll fs city)
                 (Some (firstn 2000 (or_empty user))) 6000 |}
        = Content c
        /\ trim (or_empty c) = [].
Proof.
  intros Hq. unfold AdminOverrideRoute.respond.
  destruct (trim (firstn 2000 (or_empty user))) as [|c0 q0] eqn:Q; [congruence|].
  cbn [truthy negb].
  destruct (generate _) as [|c] eqn:G.
  - split; [discriminate | now intros (c & [=] & _)].
  - unfold AdminOverride.prettyCitations. rewrite rewrite_with_agree. split.
    + intros [= H]. exists c. split; [reflexivity|].
      destruct (trim (or_empty c)) as [|a r] eqn:E; [reflexivity|].
      exfalso. revert H. apply rewrite_not_nil. discriminate.
    + intros (c' & [= <-] & ->). reflexivity.
Qed.

Lemma override_answer_is_empty_exactly_when_witness :
  AdminOverrideRoute.respond sample_fs (fun _ => Content None) (str "greenvale")
    None (Some (str "Where may I park?")) = JsonText [].
Proof.
  apply (proj2 (override_answer_is_empty_exactly_when sample_fs
                  (fun _ => Content None) (str "greenvale") None
                  (Some (str "Where may I park?"))
                  ltac:(vm_compute; discriminate))).
  exists None. split; reflexivity.
Defined.
